(** * Shallow embedding of the path planner of AerialLidarPP
      (src/pathplan/path_planner_numpy.py): [smooth_line], [gen_segment],
      [gen_path] and [raster_line]; and of the path tools
      (src/pathplan/pathtools.py): the noise generators, the distances
      along a path and the [mse] metric.

    Numbers are modelled as exact rationals [Q].  Python's failures are
    modelled as an error result: an index out of range is [IndexError], a
    true division by zero is [ZeroDivisionError].  The [while] loops of the
    source run on a fuel argument; running out of fuel is the separate
    outcome [OutOfFuel], which is not a Python error but the model's way of
    saying the loop has not finished. *)

From Stdlib Require Import QArith Qround Qabs Lqa List Lia ZArith Bool.
Import ListNotations.

Open Scope Q_scope.

(** ** Python failures and the result monad *)

Inductive pyerr := IndexError | ZeroDivisionError | OutOfFuel.

Inductive result (A : Type) :=
| Ok : A -> result A
| Err : pyerr -> result A.
Arguments Ok {A} _.
Arguments Err {A} _.

Definition bind {A B} (m : result A) (f : A -> result B) : result B :=
  match m with Ok a => f a | Err e => Err e end.

Notation "x <- m ; k" := (bind m (fun x => k))
  (at level 61, m at next level, right associativity).

(** Strict comparison [a < b] of Python, as a boolean. *)
Definition Qltb (a b : Q) : bool := negb (Qle_bool b a).

(** Python's true division [a / b]. *)
Definition pydiv (a b : Q) : result Q :=
  if Qeq_bool b 0 then Err ZeroDivisionError else Ok (a / b).

(** Python's [l[i]] on a list, negative indices counting from the end. *)
Definition py_index {A} (l : list A) (i : Z) : result A :=
  let n := Z.of_nat (length l) in
  if (0 <=? i)%Z && (i <? n)%Z then
    match nth_error l (Z.to_nat i) with Some a => Ok a | None => Err IndexError end
  else if (- n <=? i)%Z && (i <? 0)%Z then
    match nth_error l (Z.to_nat (n + i)) with Some a => Ok a | None => Err IndexError end
  else Err IndexError.

(** [l[j] = v] for an index [j] in range. *)
Fixpoint set_nth {A} (j : nat) (v : A) (l : list A) : list A :=
  match l, j with
  | [], _ => []
  | _ :: t, O => v :: t
  | h :: t, S j' => h :: set_nth j' v t
  end.

(** ** [smooth_line] *)
Module Smooth.

(** The peak list of the source ([peaks] and [peak_inds], which are always
    pushed and popped together) is kept as one stack of [(index, value)]
    pairs, top of the stack first: the source's lists are its reverse. *)
Definition peak := (nat * Q)%type.

(** Scan state: [going_up] and the peak stack. *)
Definition scan_state := (bool * list peak)%type.

(** One iteration [i] of [for i in range(1, len(points) - 1)]. *)
Definition peak_step (points : list Q) (st : scan_state) (i : nat) : scan_state :=
  let '(going_up, stk) := st in
  let z := nth i points 0 in
  if Qltb (nth (i - 1)%nat points 0) z then
    if going_up then (true, (i, z) :: tl stk)   (* peaks.pop(); peaks.append *)
    else (true, (i, z) :: stk)
  else if Qltb z (nth (i - 1)%nat points 0) then (false, stk)
  else (going_up, stk).

(** The peak-extraction pass, from [points[0]] to the final
    [peaks.append(points[len(points) - 1])]; [points] is non-empty. *)
Definition scan (points : list Q) : scan_state :=
  fold_left (peak_step points) (seq 1 (length points - 2)%nat)
    (false, [(O, nth O points 0)]).

Definition peaks_of (points : list Q) : list peak :=
  rev (((length points - 1)%nat, nth (length points - 1)%nat points 0) :: snd (scan points)).

Definition peak_inds (points : list Q) : list nat := map fst (peaks_of points).

(** [slope = (peaks[i] - peaks[i-1]) / (peak_inds[i] - peak_inds[i-1])]. *)
Fixpoint calc_slopes (pk : list peak) : result (list Q) :=
  match pk with
  | (i0, v0) :: (((i1, v1) :: _) as rest) =>
      s <- pydiv (v1 - v0) (inject_Z (Z.of_nat i1 - Z.of_nat i0));
      ss <- calc_slopes rest;
      Ok (s :: ss)
  | _ => Ok []
  end.

(** Body of the inner loop of the negative-slope pass, at index [j]. *)
Definition fwd_step (mhd s : Q) (np : list Q) (j : nat) : list Q :=
  let prev := nth (j - 1)%nat np 0 in
  let cur := nth j np 0 in
  if Qltb s (- mhd) then
    (if Qltb cur (prev - mhd) then set_nth j (prev - mhd) np else np)
  else
    (if Qltb cur (prev + s) then set_nth j (prev + s) np else np).

(** Body of the inner loop of the non-negative-slope pass, at index [j]. *)
Definition bwd_step (mhd s : Q) (np : list Q) (j : nat) : list Q :=
  let nxt := nth (j + 1)%nat np 0 in
  let cur := nth j np 0 in
  if Qltb mhd s then
    (if Qltb cur (nxt - mhd) then set_nth j (nxt - mhd) np else np)
  else
    (if Qltb cur (nxt - s) then set_nth j (nxt - s) np else np).

(** Iteration [i] of [for i in range(len(slopes))] (negative slopes). *)
Definition fwd_interval (mhd : Q) (inds : list nat) (slopes : list Q)
    (np : list Q) (i : nat) : list Q :=
  let s := nth i slopes 0 in
  if Qle_bool 0 s then np
  else
    let a := nth i inds O in
    let b := nth (i + 1)%nat inds O in
    fold_left (fwd_step mhd s) (seq (a + 1)%nat (b - a)%nat) np.

(** Iteration [i] of [for i in reversed(range(len(slopes)))]. *)
Definition bwd_interval (mhd : Q) (inds : list nat) (slopes : list Q)
    (np : list Q) (i : nat) : list Q :=
  let s := nth i slopes 0 in
  if Qltb s 0 then np
  else
    let a := nth i inds O in
    let b := nth (i + 1)%nat inds O in
    fold_left (bwd_step mhd s) (rev (seq a (b - a)%nat)) np.

Definition smooth_line (points : list Q) (max_height_diff : Q) : result (list Q) :=
  _ <- py_index points 0;                         (* peaks.append(points[0]) *)
  let pk := peaks_of points in
  slopes <- calc_slopes pk;
  let inds := map fst pk in
  let np := fold_left (fwd_interval max_height_diff inds slopes)
              (seq 0 (length slopes)) points in
  Ok (fold_left (bwd_interval max_height_diff inds slopes)
        (rev (seq 0 (length slopes))) np).

End Smooth.

(** ** [gen_segment] and [gen_path] *)
Module Path.

Definition HEIGHT_TOL : Q := 3.
Definition PATH_SPACING : Q := 1 # 2.

(** Python's [int(q)]: truncation toward zero. *)
Definition Qtrunc (q : Q) : Z := Z.quot (Qnum q) (Zpos (Qden q)).

(** The elevation raster, row-major: [surface_raster[row][column]]. *)
Definition raster := list (list Q).

(** [surface_raster[int(y)][int(x)]]. *)
Definition raster_at (r : raster) (x y : Q) : result Q :=
  row <- py_index r (Qtrunc y);
  py_index row (Qtrunc x).

(** The three output lists [x_points], [y_points], [z_points]. *)
Definition points3 := (list Q * list Q * list Q)%type.

Section GenPath.

(** [math.hypot], as used by [gen_segment]. *)
Variable hypot : Q -> Q -> Q.
(** The sampling step; the source uses [PATH_SPACING]. *)
Variable spacing : Q.

(** The [while curr_dist < seg_dist] loop of [gen_segment]; [fuel] bounds
    the number of iterations. *)
Fixpoint seg_loop (fuel : nat) (r : raster) (delta_x delta_y seg_dist : Q)
    (curr_dist x y : Q) (acc : points3) : result points3 :=
  if Qltb curr_dist seg_dist then
    match fuel with
    | O => Err OutOfFuel
    | S fuel' =>
        let '(xs, ys, zs) := acc in
        h <- raster_at r x y;
        ddx <- pydiv (delta_x * spacing) seg_dist;
        ddy <- pydiv (delta_y * spacing) seg_dist;
        seg_loop fuel' r delta_x delta_y seg_dist (curr_dist + spacing)
          (x + ddx) (y + ddy) (xs ++ [x], ys ++ [y], zs ++ [h + HEIGHT_TOL])
    end
  else Ok acc.

Definition gen_segment_sp (fuel : nat) (r : raster) (wp0 wp1 : Q * Q)
    : result points3 :=
  let '(src_x, src_y) := wp0 in
  let '(dest_x, dest_y) := wp1 in
  let delta_x := dest_x - src_x in
  let delta_y := dest_y - src_y in
  let seg_dist := hypot delta_x delta_y in
  acc <- seg_loop fuel r delta_x delta_y seg_dist 0 src_x src_y ([], [], []);
  let '(xs, ys, zs) := acc in
  h <- raster_at r dest_x dest_y;
  Ok (xs ++ [dest_x], ys ++ [dest_y], zs ++ [h + HEIGHT_TOL]).

(** The [for i in range(len(waypoints) - 1)] loop of [gen_path]. *)
Fixpoint gen_path_pairs (fuel : nat) (r : raster) (wps : list (Q * Q))
    (acc : points3) : result points3 :=
  match wps with
  | w0 :: ((w1 :: _) as rest) =>
      seg <- gen_segment_sp fuel r w0 w1;
      let '(x, y, z) := seg in
      let '(xs, ys, zs) := acc in
      gen_path_pairs fuel r rest (xs ++ x, ys ++ y, zs ++ z)
  | _ => Ok acc
  end.

Definition gen_path_sp (fuel : nat) (r : raster) (wps : list (Q * Q))
    : result points3 :=
  if (length wps <? 2)%nat then Ok ([], [], [])
  else gen_path_pairs fuel r wps ([], [], []).

End GenPath.

Definition gen_segment hypot := gen_segment_sp hypot PATH_SPACING.
Definition gen_path hypot := gen_path_sp hypot PATH_SPACING.

(** An executable rational stand-in for [math.hypot]: the square root of
    [a*a + b*b] rounded down at the resolution of its denominator; it is
    exact on perfect squares (e.g. [hypot_q 3 4 = 5]) and is [0] exactly
    when [a] and [b] are. *)
Definition hypot_q (a b : Q) : Q :=
  let s := a * a + b * b in
  Z.sqrt (Qnum s * Zpos (Qden s)) # Qden s.

(** A flat raster of [rows] by [cols] cells of height [v]. *)
Definition flat_raster (rows cols : nat) (v : Q) : raster := repeat (repeat v cols) rows.

End Path.

(** ** [raster_line] *)
Module Raster.

(** The [while ix < dx or iy < dy] loop; cells are [(x, y)] pairs. *)
Fixpoint raster_loop (fuel : nat) (dx dy sx sy x y ix iy : Z)
    (points : list (Z * Z)) : result (list (Z * Z)) :=
  if (ix <? dx)%Z || (iy <? dy)%Z then
    match fuel with
    | O => Err OutOfFuel
    | S fuel' =>
        fx <- pydiv (inject_Z ix + (1 # 2)) (inject_Z dx);
        fy <- pydiv (inject_Z iy + (1 # 2)) (inject_Z dy);
        if Qltb fx fy then                       (* horizontal step *)
          raster_loop fuel' dx dy sx sy (x + sx) y (ix + 1) iy
            (points ++ [((x + sx)%Z, y)])
        else                                     (* vertical step *)
          raster_loop fuel' dx dy sx sy x (y + sy) ix (iy + 1)
            (points ++ [(x, (y + sy)%Z)])
    end
  else Ok points.

Definition raster_line (fuel : nat) (wp0 wp1 : Z * Z) : result (list (Z * Z)) :=
  let '(src_x, src_y) := wp0 in
  let '(dest_x, dest_y) := wp1 in
  let sx := if (src_x >? dest_x)%Z then (-1)%Z else 1%Z in
  let sy := if (src_y >? dest_y)%Z then (-1)%Z else 1%Z in
  let dx := Z.abs (dest_x - src_x) in
  let dy := Z.abs (dest_y - src_y) in
  raster_loop fuel dx dy sx sy src_x src_y 0 0 [(src_x, src_y)].

End Raster.

(** ** [pathtools.py] *)
Module Tools.

(** A numpy array of three coordinates [(x, y, z)]; altitude is [z]. *)
Definition vec3 := (Q * Q * Q)%type.

(** Element-wise [u + v], [u - v], [u * k] (scalar [k]) and [u ** 2]. *)
Definition vadd (u v : vec3) : vec3 :=
  let '(a, b, c) := u in let '(d, e, f) := v in (a + d, b + e, c + f).
Definition vsub (u v : vec3) : vec3 :=
  let '(a, b, c) := u in let '(d, e, f) := v in (a - d, b - e, c - f).
Definition vscale (u : vec3) (k : Q) : vec3 :=
  let '(a, b, c) := u in (a * k, b * k, c * k).
Definition vsq (u : vec3) : vec3 :=
  let '(a, b, c) := u in (a * a, b * b, c * c).

(** [np.cross(u, v)] on vectors of length 3. *)
Definition cross (u v : vec3) : vec3 :=
  let '(u1, u2, u3) := u in
  let '(v1, v2, v3) := v in
  (u2 * v3 - u3 * v2, u3 * v1 - u1 * v3, u1 * v2 - u2 * v1).

Definition UP : vec3 := (0, 0, 1).

(** The [for pt in waypoints] loop of [gen_noise_points]; [draw i] is the
    value returned by the [i]-th call [noise()]. *)
Fixpoint noise_loop (draw : nat -> Q) (i : nat) (past_point : vec3) (pts : list vec3)
    : list vec3 :=
  match pts with
  | [] => [past_point]                                   (* yield past_point *)
  | pt :: rest =>
      let line := vsub pt past_point in
      let perpendicular := cross line UP in
      let noise_line := vscale perpendicular (draw i) in
      vadd noise_line past_point :: noise_loop draw (S i) pt rest
  end.

(** All the points yielded by [gen_noise_points]; [None] is the exception
    raised by [next(waypoints)] on an empty input (a [StopIteration] inside a
    generator, which Python re-raises as [RuntimeError]). *)
Definition gen_noise_points (draw : nat -> Q) (waypoints : list vec3) : option (list vec3) :=
  match waypoints with
  | [] => None
  | p :: rest => Some (noise_loop draw 0 p rest)
  end.

(** All the points yielded by [gen_noise_points_static]: [pt + noise(0)]
    adds the scalar [draw i] to every coordinate of point [i]. *)
Fixpoint static_loop (draw : nat -> Q) (i : nat) (pts : list vec3) : list vec3 :=
  match pts with
  | [] => []
  | pt :: rest => vadd pt (draw i, draw i, draw i) :: static_loop draw (S i) rest
  end.

Definition gen_noise_points_static (draw : nat -> Q) (waypoints : list vec3) : list vec3 :=
  static_loop draw 0 waypoints.

Section Dist.

(** [np.linalg.norm]. *)
Variable norm : vec3 -> Q.

(** The loop of [get_dist_between_points], [prev] being [None] before the
    first point. *)
Fixpoint dist_loop (scale : Q) (prev : option vec3) (pts : list vec3) : list Q :=
  match pts with
  | [] => []
  | pt :: rest =>
      match prev with
      | Some p => norm (vsub pt p) * scale :: dist_loop scale (Some pt) rest
      | None => dist_loop scale (Some pt) rest
      end
  end.

Definition get_dist_between_points (points : list vec3) (scale : Q) : list Q :=
  dist_loop scale None points.

(** [sum(get_dist_between_points(path))]: [sum] starts from [0]. *)
Definition total_dist (path : list vec3) : Q :=
  fold_left Qplus (get_dist_between_points path 1) 0.

End Dist.

(** Outcome of [mse]: the column means, numpy's [nan] (mean of an empty
    array), or the [ValueError] of a failed broadcast. *)
Inductive mse_out := MseMean (m : vec3) | MseNaN | MseValueError.

(** [.mean(axis=0)] of a non-empty array of rows. *)
Definition col_mean (rows : list vec3) : vec3 :=
  let n := inject_Z (Z.of_nat (length rows)) in
  let '(sa, sb, sc) := fold_left vadd rows (0, 0, 0) in
  (sa / n, sb / n, sc / n).

Fixpoint zip_sub (us vs : list vec3) : list vec3 :=
  match us, vs with
  | u :: us', v :: vs' => vsub u v :: zip_sub us' vs'
  | _, _ => []
  end.

(** [((expected - actual) ** 2).mean(axis=0)] on arrays of shape [(n, 3)] and
    [(m, 3)]: equal lengths subtract row by row, a single row is broadcast
    against the other array, other lengths fail to broadcast.  An empty list
    becomes an array of shape [(0,)]: against another empty one the mean is
    [nan], against a non-empty one the broadcast fails. *)
Definition mse (expected actual : list vec3) : mse_out :=
  match expected, actual with
  | [], [] => MseNaN
  | [], _ :: _ | _ :: _, [] => MseValueError
  | _, _ =>
      if Nat.eqb (length expected) (length actual) then
        MseMean (col_mean (map vsq (zip_sub expected actual)))
      else
        match expected, actual with
        | [e], _ => MseMean (col_mean (map (fun a => vsq (vsub e a)) actual))
        | _, [a] => MseMean (col_mean (map (fun e => vsq (vsub e a)) expected))
        | _, _ => MseValueError
        end
  end.

(** [calc_errors_with_gen_noise] after its file has been read into the list
    [waypoints]: [metric(expected=waypoints, actual=noise_pts)] with the
    default [metric=mse]. *)
Definition calc_errors_with_gen_noise (draw : nat -> Q) (waypoints : list vec3)
    : option mse_out :=
  match gen_noise_points draw waypoints with
  | None => None
  | Some noise_pts => Some (mse waypoints noise_pts)
  end.

End Tools.

(** * Properties *)

(** ** Generic facts *)

Lemma Qltb_true (a b : Q) : Qltb a b = true <-> a < b.
Proof.
  unfold Qltb. rewrite negb_true_iff. split; intro H.
  - apply Qnot_le_lt. intro Hle. apply Qle_bool_iff in Hle. congruence.
  - destruct (Qle_bool b a) eqn:E; [|reflexivity].
    apply Qle_bool_iff in E. exfalso. apply (Qlt_not_le a b); assumption.
Qed.

Lemma Qltb_false (a b : Q) : Qltb a b = false <-> b <= a.
Proof.
  unfold Qltb. rewrite negb_false_iff. apply Qle_bool_iff.
Qed.

Lemma fold_left_ext_in {A B} (f g : A -> B -> A) (l : list B) (x : A) :
  (forall b y, In b l -> f y b = g y b) ->
  fold_left f l x = fold_left g l x.
Proof.
  revert x. induction l as [|b l IH]; intros x H; simpl; [reflexivity|].
  rewrite (H b x (or_introl eq_refl)). apply IH.
  intros b' y Hin. apply H. right. exact Hin.
Qed.

(** A step relation preserved by every step is preserved by the loop. *)
Lemma fold_left_preserve {A B} (R : A -> A -> Prop) (f : A -> B -> A) :
  (forall x, R x x) -> (forall x y z, R x y -> R y z -> R x z) ->
  (forall x b, R x (f x b)) ->
  forall l x, R x (fold_left f l x).
Proof.
  intros Hrefl Htrans Hstep l. induction l as [|b l IH]; intro x; simpl.
  - apply Hrefl.
  - eapply Htrans; [apply Hstep | apply IH].
Qed.

(** Pointwise order on altitude sequences. *)
Definition pw_le (l1 l2 : list Q) : Prop := Forall2 Qle l1 l2.

Lemma pw_le_refl (l : list Q) : pw_le l l.
Proof.
  unfold pw_le. induction l; constructor; [apply Qle_refl | assumption].
Qed.

Lemma pw_le_trans (l1 l2 l3 : list Q) : pw_le l1 l2 -> pw_le l2 l3 -> pw_le l1 l3.
Proof.
  unfold pw_le. intro H12. revert l3.
  induction H12 as [|a b l1 l2 Hab H12 IH]; intros l3 H23; inversion H23; subst.
  - constructor.
  - constructor; [eapply Qle_trans; eassumption | apply IH; assumption].
Qed.

Lemma set_nth_raise (j : nat) (v : Q) (l : list Q) :
  nth j l 0 <= v -> pw_le l (set_nth j v l).
Proof.
  unfold pw_le. revert j.
  induction l as [|h t IH]; intros j Hj; [destruct j; constructor|].
  destruct j as [|j]; simpl in Hj; simpl.
  - constructor; [exact Hj|]. apply pw_le_refl.
  - constructor; [apply Qle_refl|]. apply IH. exact Hj.
Qed.

Lemma raise_if (j : nat) (c : Q) (l : list Q) :
  pw_le l (if Qltb (nth j l 0) c then set_nth j c l else l).
Proof.
  destruct (Qltb (nth j l 0) c) eqn:E.
  - apply set_nth_raise. apply Qlt_le_weak. apply Qltb_true. exact E.
  - apply pw_le_refl.
Qed.

Lemma pydiv_ok (a b : Q) : ~ b == 0 -> pydiv a b = Ok (a / b).
Proof.
  intro Hb. unfold pydiv. destruct (Qeq_bool b 0) eqn:E; [|reflexivity].
  apply Qeq_bool_iff in E. contradiction.
Qed.

Lemma py_index_head {A} (a : A) (l : list A) : py_index (a :: l) 0 = Ok a.
Proof. reflexivity. Qed.

Lemma inject_Z_nonzero (z : Z) : z <> 0%Z -> ~ inject_Z z == 0.
Proof.
  intros Hz H. apply Hz. apply (proj1 (inject_Z_injective z 0)). exact H.
Qed.

(** ** [smooth_line] *)
Module SmoothFacts.
Import Smooth.

Lemma fwd_step_raise (mhd s : Q) (np : list Q) (j : nat) :
  pw_le np (fwd_step mhd s np j).
Proof.
  unfold fwd_step. destruct (Qltb s (- mhd)); apply raise_if.
Qed.

Lemma bwd_step_raise (mhd s : Q) (np : list Q) (j : nat) :
  pw_le np (bwd_step mhd s np j).
Proof.
  unfold bwd_step. destruct (Qltb mhd s); apply raise_if.
Qed.

Create HintDb smooth.
#[local] Hint Resolve pw_le_refl pw_le_trans fwd_step_raise bwd_step_raise : smooth.

Lemma fwd_interval_raise mhd inds slopes np i :
  pw_le np (fwd_interval mhd inds slopes np i).
Proof.
  unfold fwd_interval. destruct (Qle_bool 0 (nth i slopes 0)); [apply pw_le_refl|].
  apply fold_left_preserve; eauto with smooth.
Qed.

Lemma bwd_interval_raise mhd inds slopes np i :
  pw_le np (bwd_interval mhd inds slopes np i).
Proof.
  unfold bwd_interval. destruct (Qltb (nth i slopes 0) 0); [apply pw_le_refl|].
  apply fold_left_preserve; eauto with smooth.
Qed.

#[local] Hint Resolve fwd_interval_raise bwd_interval_raise : smooth.

(** Peak indices are strictly increasing, as the source's list [peak_inds]
    (left to right). *)
Fixpoint incr (pk : list peak) : Prop :=
  match pk with
  | (i0, _) :: (((i1, _) :: _) as rest) => (i0 < i1)%nat /\ incr rest
  | _ => True
  end.

Lemma incr_snoc (l : list peak) (i : nat) (z : Q) :
  incr l -> Forall (fun p => (fst p < i)%nat) l -> incr (l ++ [(i, z)]).
Proof.
  induction l as [|[i0 v0] l IH]; intros Hinc HF; [exact I|].
  inversion HF as [|? ? Hi0 HF']; subst.
  destruct l as [|[i1 v1] l'].
  - simpl. split; [exact Hi0 | exact I].
  - destruct Hinc as [H01 Hinc]. split; [exact H01|].
    apply IH; assumption.
Qed.

Lemma incr_app_l (l m : list peak) : incr (l ++ m) -> incr l.
Proof.
  induction l as [|[i0 v0] l IH]; intro H; [exact I|].
  destruct l as [|[i1 v1] l']; [exact I|].
  destruct H as [H01 H]. split; [exact H01|]. apply IH. exact H.
Qed.

(** Invariant of the peak-extraction loop before iteration [k]: the stack
    read bottom-up has increasing indices, all below [k], and every
    recorded value is the input value at its index. *)
Definition scan_inv (points : list Q) (k : nat) (st : scan_state) : Prop :=
  incr (rev (snd st)) /\
  Forall (fun p => (fst p < k)%nat /\ snd p = nth (fst p) points 0) (snd st).

Lemma Forall_weaken_lt (points : list Q) (k : nat) (l : list peak) :
  Forall (fun p => (fst p < k)%nat /\ snd p = nth (fst p) points 0) l ->
  Forall (fun p => (fst p < S k)%nat /\ snd p = nth (fst p) points 0) l.
Proof.
  apply Forall_impl. intros p [H1 H2]. split; [lia | exact H2].
Qed.

Lemma Forall_fst_lt (points : list Q) (k : nat) (l : list peak) :
  Forall (fun p => (fst p < k)%nat /\ snd p = nth (fst p) points 0) l ->
  Forall (fun p => (fst p < k)%nat) l.
Proof. apply Forall_impl. intros p [H1 _]. exact H1. Qed.

Lemma peak_step_inv (points : list Q) (i : nat) (st : scan_state) :
  scan_inv points i st -> scan_inv points (S i) (peak_step points st i).
Proof.
  destruct st as [going_up stk]. intros [Hinc HF]. simpl in Hinc, HF.
  unfold peak_step.
  destruct (Qltb (nth (i - 1) points 0) (nth i points 0)).
  - destruct going_up.
    + (* pop, then push [(i, points[i])] *)
      destruct stk as [|p stk'].
      * split; simpl; [exact I|]. constructor; [split; [simpl; lia | reflexivity] | constructor].
      * inversion HF as [|? ? _ HF']; subst. simpl in Hinc.
        split; simpl.
        -- apply incr_snoc; [eapply incr_app_l; exact Hinc|].
           apply Forall_rev. eapply Forall_fst_lt. exact HF'.
        -- constructor; [split; [simpl; lia | reflexivity]|]. apply Forall_weaken_lt. exact HF'.
    + split; simpl.
      * apply incr_snoc; [exact Hinc|]. apply Forall_rev. eapply Forall_fst_lt. exact HF.
      * constructor; [split; [simpl; lia | reflexivity]|]. apply Forall_weaken_lt. exact HF.
  - destruct (Qltb (nth i points 0) (nth (i - 1) points 0));
      (split; [exact Hinc | apply Forall_weaken_lt; exact HF]).
Qed.

Lemma scan_loop_inv (points : list Q) (len k : nat) (st : scan_state) :
  scan_inv points k st ->
  scan_inv points (k + len) (fold_left (peak_step points) (seq k len) st).
Proof.
  revert k st. induction len as [|len IH]; intros k st H; simpl.
  - rewrite Nat.add_0_r. exact H.
  - replace (k + S len)%nat with (S k + len)%nat by lia.
    apply IH. apply peak_step_inv. exact H.
Qed.

Lemma peaks_of_inv (points : list Q) :
  (2 <= length points)%nat ->
  incr (peaks_of points) /\
  Forall (fun p => (fst p < length points)%nat /\ snd p = nth (fst p) points 0)
    (peaks_of points).
Proof.
  intro Hlen.
  assert (H0 : scan_inv points 1 (false, [(O, nth O points 0)])).
  { split; [exact I|]. constructor; [split; [simpl; lia | reflexivity] | constructor]. }
  destruct (scan_loop_inv points (length points - 2) 1 _ H0) as [Hinc HF].
  fold (scan points) in Hinc, HF.
  replace (1 + (length points - 2))%nat with (length points - 1)%nat in HF by lia.
  unfold peaks_of. split.
  - simpl. apply incr_snoc; [exact Hinc|].
    apply Forall_rev. eapply Forall_fst_lt. exact HF.
  - apply Forall_rev. constructor; [split; [simpl; lia | reflexivity]|].
    eapply Forall_impl; [|exact HF]. intros p [H1 H2]. split; [lia | exact H2].
Qed.

Lemma calc_slopes_cons (i0 i1 : nat) (v0 v1 : Q) (pk : list peak) :
  calc_slopes ((i0, v0) :: (i1, v1) :: pk) =
  (s <- pydiv (v1 - v0) (inject_Z (Z.of_nat i1 - Z.of_nat i0));
   ss <- calc_slopes ((i1, v1) :: pk);
   Ok (s :: ss)).
Proof. reflexivity. Qed.

Lemma calc_slopes_ok (pk : list peak) :
  incr pk -> exists ss, calc_slopes pk = Ok ss.
Proof.
  induction pk as [|[i0 v0] pk IH]; intro Hinc; [exists []; reflexivity|].
  destruct pk as [|[i1 v1] pk']; [exists []; reflexivity|].
  destruct Hinc as [H01 Hinc]. destruct (IH Hinc) as [ss Hss].
  rewrite calc_slopes_cons, pydiv_ok by (apply inject_Z_nonzero; lia).
  cbn [bind]. unfold peak in Hss. rewrite Hss. cbn [bind]. eexists. reflexivity.
Qed.

(** Every adjacent step of [points] has magnitude at most [m]. *)
Definition adj_bounded (points : list Q) (m : Q) : Prop :=
  forall k, (S k < length points)%nat ->
  Qabs (nth (S k) points 0 - nth k points 0) <= m.

Lemma adj_bounded_span (points : list Q) (m : Q) :
  adj_bounded points m ->
  forall a d, (a + d < length points)%nat ->
  Qabs (nth (a + d) points 0 - nth a points 0) <= inject_Z (Z.of_nat d) * m.
Proof.
  intros Hadj a d. induction d as [|d IH]; intro Hd.
  - rewrite Nat.add_0_r. apply Qabs_Qle_condition. simpl.
    change (inject_Z 0) with 0. split; lra.
  - rewrite Nat2Z.inj_succ, <- Z.add_1_r, inject_Z_plus.
    specialize (IH ltac:(lia)).
    specialize (Hadj (a + d)%nat ltac:(lia)).
    replace (S (a + d)) with (a + S d)%nat in Hadj by lia.
    apply Qabs_Qle_condition in IH, Hadj. apply Qabs_Qle_condition.
    destruct IH, Hadj. rewrite Qmult_plus_distr_l.
    change (inject_Z 1) with 1. split; lra.
Qed.

Lemma slope_bounded (points : list Q) (m : Q) (i0 i1 : nat) :
  adj_bounded points m -> (i0 < i1)%nat -> (i1 < length points)%nat ->
  let s := (nth i1 points 0 - nth i0 points 0) /
           inject_Z (Z.of_nat i1 - Z.of_nat i0) in
  - m <= s /\ s <= m.
Proof.
  intros Hadj H01 H1 s.
  destruct (Nat.le_exists_sub i0 i1 ltac:(lia)) as [d [Hd _]]. subst i1.
  pose proof (adj_bounded_span points m Hadj i0 d ltac:(lia)) as Hspan.
  rewrite Nat.add_comm in Hspan. apply Qabs_Qle_condition in Hspan.
  destruct Hspan as [Hlo Hhi].
  assert (HD : (Z.of_nat (d + i0) - Z.of_nat i0 = Z.of_nat d)%Z) by lia.
  unfold s. rewrite HD.
  assert (Hpos : 0 < inject_Z (Z.of_nat d)).
  { change 0 with (inject_Z 0). rewrite <- Zlt_Qlt. lia. }
  split.
  - apply Qle_shift_div_l; [exact Hpos|].
    setoid_replace (- m * inject_Z (Z.of_nat d)) with
      (- (inject_Z (Z.of_nat d) * m)) by ring. lra.
  - apply Qle_shift_div_r; [exact Hpos|].
    setoid_replace (m * inject_Z (Z.of_nat d)) with
      (inject_Z (Z.of_nat d) * m) by ring. lra.
Qed.

Lemma calc_slopes_bounded (points : list Q) (m : Q) (pk : list peak) (ss : list Q) :
  adj_bounded points m -> incr pk ->
  Forall (fun p => (fst p < length points)%nat /\ snd p = nth (fst p) points 0) pk ->
  calc_slopes pk = Ok ss ->
  Forall (fun s => - m <= s /\ s <= m) ss.
Proof.
  intro Hadj. revert ss.
  induction pk as [|[i0 v0] pk IH]; intros ss Hinc HF Hss.
  - inversion Hss. constructor.
  - destruct pk as [|[i1 v1] pk'].
    + inversion Hss. constructor.
    + destruct Hinc as [H01 Hinc].
      inversion HF as [|? ? [Hi0 Hv0] HF']; subst.
      inversion HF' as [|? ? [Hi1 Hv1] _]; subst.
      simpl in Hi0, Hv0, Hi1, Hv1. subst v0 v1.
      rewrite calc_slopes_cons, pydiv_ok in Hss by (apply inject_Z_nonzero; lia).
      cbn [bind] in Hss.
      destruct (calc_slopes ((i1, nth i1 points 0) :: pk')) as [ss'|e] eqn:E;
        [|discriminate].
      inversion Hss; subst. constructor.
      * apply slope_bounded; assumption.
      * apply IH; [exact Hinc | exact HF' | exact E].
Qed.

Lemma fwd_interval_mhd (m1 m2 : Q) inds slopes np i :
  - m1 <= nth i slopes 0 -> - m2 <= nth i slopes 0 ->
  fwd_interval m1 inds slopes np i = fwd_interval m2 inds slopes np i.
Proof.
  intros H1 H2. unfold fwd_interval.
  destruct (Qle_bool 0 (nth i slopes 0)); [reflexivity|].
  apply fold_left_ext_in. intros j l _. unfold fwd_step.
  rewrite (proj2 (Qltb_false _ _) H1), (proj2 (Qltb_false _ _) H2). reflexivity.
Qed.

Lemma bwd_interval_mhd (m1 m2 : Q) inds slopes np i :
  nth i slopes 0 <= m1 -> nth i slopes 0 <= m2 ->
  bwd_interval m1 inds slopes np i = bwd_interval m2 inds slopes np i.
Proof.
  intros H1 H2. unfold bwd_interval.
  destruct (Qltb (nth i slopes 0) 0); [reflexivity|].
  apply fold_left_ext_in. intros j l _. unfold bwd_step.
  rewrite (proj2 (Qltb_false _ _) H1), (proj2 (Qltb_false _ _) H2). reflexivity.
Qed.

Lemma Forall_nth_Q (P : Q -> Prop) (l : list Q) (i : nat) :
  Forall P l -> (i < length l)%nat -> P (nth i l 0).
Proof.
  intros HF Hi. rewrite Forall_forall in HF. apply HF. apply nth_In. exact Hi.
Qed.

(** ** Claims *)

(** C1: for every input of length at least 2 and every [max_height_diff],
    [smooth_line] succeeds and its output is pointwise at least its input:
    neither pass ever lowers a value. *)
Theorem smooth_line_never_lowers (points : list Q) (max_height_diff : Q) :
  (2 <= length points)%nat ->
  exists out, smooth_line points max_height_diff = Ok out /\ pw_le points out.
Proof.
  intro Hlen.
  destruct (peaks_of_inv points Hlen) as [Hinc _].
  destruct (calc_slopes_ok _ Hinc) as [ss Hss].
  destruct points as [|p0 ps]; [simpl in Hlen; lia|].
  unfold smooth_line. rewrite py_index_head. cbn [bind].
  rewrite Hss. cbn [bind]. eexists. split; [reflexivity|].
  set (np := fold_left (fwd_interval _ _ _) _ (p0 :: ps)).
  apply pw_le_trans with np.
  - apply (fold_left_preserve pw_le (fwd_interval max_height_diff _ ss)); eauto with smooth.
  - apply (fold_left_preserve pw_le (bwd_interval max_height_diff _ ss)); eauto with smooth.
Qed.

(** C1 at a concrete input. *)
Lemma smooth_line_never_lowers_witness :
  (2 <= length [3; 2; 3; 4; 2; 1; 3; 2; 5])%nat /\
  exists out, smooth_line [3; 2; 3; 4; 2; 1; 3; 2; 5] 3 = Ok out /\
              pw_le [3; 2; 3; 4; 2; 1; 3; 2; 5] out.
Proof.
  split; [simpl; lia|]. apply smooth_line_never_lowers. simpl; lia.
Defined.

(** C2 (as the code runs it): on [[0;3;0]] with [max_height_diff = 1] the
    peaks are at indices [[0;1;2]] with slopes [[3;-3]]; the negative-slope
    pass clamps index 2 to [3 - 1 = 2], and the non-negative-slope pass then
    raises index 0 to [3 - 1 = 2], so the result is [[2;3;2]]. *)
Theorem smooth_line_scenario3 :
  peak_inds [0; 3; 0] = [0; 1; 2]%nat /\
  calc_slopes (peaks_of [0; 3; 0]) = Ok [3; -3] /\
  fold_left (fwd_interval 1 [0; 1; 2]%nat [3; -3]) (seq 0 2) [0; 3; 0] = [0; 3; 2] /\
  smooth_line [0; 3; 0] 1 = Ok [2; 3; 2].
Proof. vm_compute. repeat split. Qed.

(** C2 fails as stated: the returned sequence is not [[0;3;2]]. *)
Lemma smooth_line_scenario3_counterexample :
  smooth_line [0; 3; 0] 1 <> Ok [0; 3; 2].
Proof. vm_compute. discriminate. Qed.

(** C4 (amended): when two bounds [m1] and [m2] are both at least every
    adjacent slope magnitude of the input, the clamping branches never fire
    and [smooth_line] returns the same result for both bounds. *)
Theorem smooth_line_mhd_irrelevant (points : list Q) (m1 m2 : Q) :
  (2 <= length points)%nat ->
  adj_bounded points m1 -> adj_bounded points m2 ->
  smooth_line points m1 = smooth_line points m2.
Proof.
  intros Hlen H1 H2.
  destruct (peaks_of_inv points Hlen) as [Hinc HF].
  destruct (calc_slopes_ok _ Hinc) as [ss Hss].
  pose proof (calc_slopes_bounded points m1 _ ss H1 Hinc HF Hss) as B1.
  pose proof (calc_slopes_bounded points m2 _ ss H2 Hinc HF Hss) as B2.
  destruct points as [|p0 ps]; [simpl in Hlen; lia|].
  unfold smooth_line. rewrite py_index_head. cbn [bind].
  rewrite Hss. cbn [bind]. f_equal.
  set (inds := map fst (peaks_of (p0 :: ps))).
  rewrite (fold_left_ext_in (fwd_interval m1 inds ss) (fwd_interval m2 inds ss)).
  - apply fold_left_ext_in. intros i l Hi.
    apply in_rev, in_seq in Hi.
    apply bwd_interval_mhd.
    + exact (proj2 (Forall_nth_Q _ ss i B1 ltac:(lia))).
    + exact (proj2 (Forall_nth_Q _ ss i B2 ltac:(lia))).
  - intros i l Hi. apply in_seq in Hi.
    apply fwd_interval_mhd.
    + exact (proj1 (Forall_nth_Q _ ss i B1 ltac:(lia))).
    + exact (proj1 (Forall_nth_Q _ ss i B2 ltac:(lia))).
Qed.

Lemma adj_bounded_310 (m : Q) : 2 <= m -> adj_bounded [3; 1; 0] m.
Proof.
  intros Hm k Hk. destruct k as [|[|k]]; simpl in Hk; try lia.
  - apply Qabs_Qle_condition. simpl. split; lra.
  - apply Qabs_Qle_condition. simpl. split; lra.
Qed.

Lemma smooth_line_mhd_irrelevant_witness :
  adj_bounded [3; 1; 0] 2 /\ adj_bounded [3; 1; 0] 5 /\
  smooth_line [3; 1; 0] 2 = smooth_line [3; 1; 0] 5.
Proof.
  assert (H2 : adj_bounded [3; 1; 0] 2) by (apply adj_bounded_310; lra).
  assert (H5 : adj_bounded [3; 1; 0] 5) by (apply adj_bounded_310; lra).
  split; [exact H2|]. split; [exact H5|].
  apply smooth_line_mhd_irrelevant; [simpl; lia | exact H2 | exact H5].
Defined.

(** C4 fails as stated: every adjacent step of [[3;1;0]] is at most 2, yet
    with [max_height_diff = 2] the descending interval is raised to its
    chord: index 1 becomes [3 + (-3/2) = 3/2]. *)
Lemma smooth_line_not_identity_counterexample :
  adj_bounded [3; 1; 0] 2 /\
  smooth_line [3; 1; 0] 2 = Ok [3; 3 # 2; 0] /\
  smooth_line [3; 1; 0] 2 <> Ok [3; 1; 0].
Proof.
  split; [apply adj_bounded_310; lra|].
  split; [vm_compute; reflexivity | vm_compute; discriminate].
Qed.

(** C5 (amended): a flat step [points[i] == points[i-1]] leaves the scan
    state unchanged: no peak is recorded and the rising flag keeps its
    value. *)
Theorem peak_step_flat (points : list Q) (i : nat) (st : scan_state) :
  nth i points 0 == nth (i - 1) points 0 -> peak_step points st i = st.
Proof.
  intro Heq. destruct st as [going_up stk]. unfold peak_step.
  assert (H1 : nth i points 0 <= nth (i - 1) points 0) by lra.
  assert (H2 : nth (i - 1) points 0 <= nth i points 0) by lra.
  rewrite (proj2 (Qltb_false _ _) H1), (proj2 (Qltb_false _ _) H2).
  reflexivity.
Qed.

Lemma peak_step_flat_witness :
  (nth 2 [0; 1; 1; 2; 0] 0 == nth (2 - 1) [0; 1; 1; 2; 0] 0) /\
  peak_step [0; 1; 1; 2; 0] (true, [(1%nat, 1); (O, 0)]) 2 =
    (true, [(1%nat, 1); (O, 0)]).
Proof.
  split; [reflexivity|]. apply peak_step_flat. reflexivity.
Defined.

(** C5 fails as stated: on [[0;1;1;2;0]] the rising flag is still set after
    the flat step at index 2, and the rise at index 3 replaces the peak at
    index 1 instead of starting a new run (the claim predicts the peak
    indices [[0;1;3;4]]). *)
Lemma flat_keeps_rise_counterexample :
  fst (fold_left (peak_step [0; 1; 1; 2; 0]) (seq 1 2) (false, [(O, 0)])) = true /\
  peak_inds [0; 1; 1; 2; 0] = [0; 3; 4]%nat /\
  peak_inds [0; 1; 1; 2; 0] <> [0; 1; 3; 4]%nat.
Proof. vm_compute. split; [reflexivity | split; [reflexivity | discriminate]]. Qed.

(** C6 (amended): [smooth_line] has no length guard.  The empty sequence
    fails on [points[0]] with an [IndexError]; for a one-element sequence the
    peak list is [[(0, a); (0, a)]] and the slope computation divides by
    zero. *)
Theorem smooth_line_short_inputs (max_height_diff a : Q) :
  smooth_line [] max_height_diff = Err IndexError /\
  smooth_line [a] max_height_diff = Err ZeroDivisionError.
Proof. split; reflexivity. Qed.

(** C6 fails as stated: neither short input is returned unchanged. *)
Lemma smooth_line_short_counterexample :
  smooth_line [] 1 <> Ok [] /\ smooth_line [5] 1 <> Ok [5].
Proof. vm_compute. split; discriminate. Qed.

End SmoothFacts.

(** ** [raster_line] *)
Module RasterFacts.
Import Raster.

(** Progress fraction [(i + 0.5) / d] of the source, on one axis. *)
Lemma frac_ge_1 (i d : Z) :
  (0 < d)%Z -> (d <= i)%Z -> 1 <= (inject_Z i + (1 # 2)) / inject_Z d.
Proof.
  intros Hd Hi. apply Qle_shift_div_l.
  - change 0 with (inject_Z 0). rewrite <- Zlt_Qlt. exact Hd.
  - rewrite Zle_Qle in Hi. lra.
Qed.

Lemma frac_lt_1 (i d : Z) :
  (0 <= i)%Z -> (i < d)%Z -> (inject_Z i + (1 # 2)) / inject_Z d < 1.
Proof.
  intros Hi Hd. apply Qlt_shift_div_r.
  - change 0 with (inject_Z 0). rewrite <- Zlt_Qlt. lia.
  - assert (H : (i + 1 <= d)%Z) by lia. rewrite Zle_Qle, inject_Z_plus in H.
    change (inject_Z 1) with 1 in H. lra.
Qed.

Section Loop.

Variables (dx dy sx sy x0 y0 : Z).
Hypotheses (Hdx : (0 < dx)%Z) (Hdy : (0 < dy)%Z).

(** The traversal loop, from counters [(ix, iy)], appends exactly
    [(dx - ix) + (dy - iy)] cells and ends at [(x0 + sx*dx, y0 + sy*dy)]. *)
Lemma raster_loop_spec (fuel : nat) :
  forall (ix iy x y : Z) (pts : list (Z * Z)),
  (0 <= ix <= dx)%Z -> (0 <= iy <= dy)%Z ->
  (Z.to_nat ((dx - ix) + (dy - iy)) <= fuel)%nat ->
  x = (x0 + sx * ix)%Z -> y = (y0 + sy * iy)%Z ->
  last pts (0, 0)%Z = (x, y) ->
  exists ext,
    raster_loop fuel dx dy sx sy x y ix iy pts = Ok (pts ++ ext) /\
    length ext = Z.to_nat ((dx - ix) + (dy - iy)) /\
    last (pts ++ ext) (0, 0)%Z = ((x0 + sx * dx)%Z, (y0 + sy * dy)%Z).
Proof.
  induction fuel as [|fuel IH]; intros ix iy x y pts Hix Hiy Hfuel Hx Hy Hlast.
  - assert (ix = dx /\ iy = dy) as [-> ->] by lia.
    exists []. simpl. rewrite !Z.ltb_irrefl. simpl.
    rewrite app_nil_r. split; [reflexivity|]. split; [lia|]. subst. exact Hlast.
  - cbn [raster_loop].
    destruct ((ix <? dx)%Z || (iy <? dy)%Z) eqn:Hguard.
    2:{ apply orb_false_iff in Hguard as [H1 H2].
        apply Z.ltb_ge in H1, H2. assert (ix = dx /\ iy = dy) as [-> ->] by lia.
        exists []. rewrite app_nil_r. split; [reflexivity|]. split; [simpl; lia|].
        subst. exact Hlast. }
    apply orb_true_iff in Hguard.
    rewrite !pydiv_ok by (apply inject_Z_nonzero; lia). cbn [bind].
    destruct (Qltb ((inject_Z ix + (1 # 2)) / inject_Z dx)
                   ((inject_Z iy + (1 # 2)) / inject_Z dy)) eqn:Hcmp.
    + (* horizontal step: only possible while [ix < dx] *)
      apply Qltb_true in Hcmp.
      assert (Hlt : (ix < dx)%Z).
      { destruct (Z.lt_ge_cases ix dx) as [H|H]; [exact H|].
        destruct Hguard as [Hg|Hg]; apply Z.ltb_lt in Hg; [lia|].
        pose proof (frac_ge_1 ix dx Hdx H). pose proof (frac_lt_1 iy dy ltac:(lia) Hg).
        lra. }
      destruct (IH (ix + 1)%Z iy (x + sx)%Z y (pts ++ [((x + sx)%Z, y)]))
        as [ext [Hrun [Hlen Hend]]];
        [lia | lia | lia | subst; ring | subst; ring | apply last_last |].
      exists (((x + sx)%Z, y) :: ext). rewrite Hrun, <- app_assoc.
      split; [reflexivity|]. split; [simpl; lia|].
      rewrite <- app_assoc in Hend. exact Hend.
    + (* vertical step: only possible while [iy < dy] *)
      apply Qltb_false in Hcmp.
      assert (Hlt : (iy < dy)%Z).
      { destruct (Z.lt_ge_cases iy dy) as [H|H]; [exact H|].
        destruct Hguard as [Hg|Hg]; apply Z.ltb_lt in Hg; [|lia].
        pose proof (frac_ge_1 iy dy Hdy H). pose proof (frac_lt_1 ix dx ltac:(lia) Hg).
        lra. }
      destruct (IH ix (iy + 1)%Z x (y + sy)%Z (pts ++ [(x, (y + sy)%Z)]))
        as [ext [Hrun [Hlen Hend]]];
        [lia | lia | lia | subst; ring | subst; ring | apply last_last |].
      exists ((x, (y + sy)%Z) :: ext). rewrite Hrun, <- app_assoc.
      split; [reflexivity|]. split; [simpl; lia|].
      rewrite <- app_assoc in Hend. exact Hend.
Qed.

End Loop.

(** C9: for integer endpoints with both absolute deltas positive,
    [raster_line] returns [dx + dy + 1] cells, from the source to the
    destination (given fuel for its [dx + dy] iterations). *)
Theorem raster_line_cells (fuel : nat) (x0 y0 x1 y1 : Z) :
  x0 <> x1 -> y0 <> y1 ->
  (Z.to_nat (Z.abs (x1 - x0) + Z.abs (y1 - y0)) <= fuel)%nat ->
  exists cells,
    raster_line fuel (x0, y0) (x1, y1) = Ok cells /\
    length cells = S (Z.to_nat (Z.abs (x1 - x0) + Z.abs (y1 - y0))) /\
    hd_error cells = Some (x0, y0) /\
    last cells (0, 0)%Z = (x1, y1).
Proof.
  intros Hx Hy Hfuel. unfold raster_line.
  set (sx := if (x0 >? x1)%Z then (-1)%Z else 1%Z).
  set (sy := if (y0 >? y1)%Z then (-1)%Z else 1%Z).
  destruct (raster_loop_spec (Z.abs (x1 - x0)) (Z.abs (y1 - y0)) sx sy x0 y0
              ltac:(lia) ltac:(lia) fuel 0 0 x0 y0 [(x0, y0)])
    as [ext [Hrun [Hlen Hend]]]; [lia | lia | lia | lia | lia | reflexivity |].
  exists ((x0, y0) :: ext). rewrite Hrun. split; [reflexivity|].
  split; [simpl; lia|]. split; [reflexivity|].
  simpl app in Hend. rewrite Hend. unfold sx, sy.
  f_equal; [destruct (Z.gtb_spec x0 x1) | destruct (Z.gtb_spec y0 y1)]; lia.
Qed.

Lemma raster_line_cells_witness :
  (0 <> 1)%Z /\ (0 <> 7)%Z /\ (Z.to_nat (Z.abs (1 - 0) + Z.abs (7 - 0)) <= 8)%nat /\
  exists cells,
    raster_line 8 (0, 0)%Z (1, 7)%Z = Ok cells /\
    length cells = S (Z.to_nat (Z.abs (1 - 0) + Z.abs (7 - 0))) /\
    hd_error cells = Some (0, 0)%Z /\ last cells (0, 0)%Z = (1, 7)%Z.
Proof.
  split; [lia|]. split; [lia|]. split; [vm_compute; lia|].
  apply raster_line_cells; [lia | lia | vm_compute; lia].
Defined.

(** C7 (a defect of the code): [raster_line] does not special-case a
    degenerate axis, although its loop guard [ix < dx or iy < dy] is meant
    to keep advancing the remaining axis: with exactly one absolute delta
    equal to 0, the first iteration divides by that zero delta and raises
    [ZeroDivisionError] instead of returning the cells of the line. *)
Theorem raster_line_degenerate_axis (fuel : nat) (x0 y0 x1 y1 : Z) :
  (x0 = x1 /\ y0 <> y1) \/ (y0 = y1 /\ x0 <> x1) ->
  raster_line (S fuel) (x0, y0) (x1, y1) = Err ZeroDivisionError.
Proof.
  intros [[<- Hy] | [<- Hx]]; unfold raster_line; rewrite Z.sub_diag; cbn [raster_loop].
  - rewrite (proj2 (Z.ltb_lt 0 (Z.abs (y1 - y0))) ltac:(lia)), orb_true_r.
    reflexivity.
  - rewrite (proj2 (Z.ltb_lt 0 (Z.abs (x1 - x0))) ltac:(lia)), orb_true_l.
    rewrite pydiv_ok by (apply inject_Z_nonzero; lia). reflexivity.
Qed.

Lemma raster_line_degenerate_axis_witness :
  ((0 = 0 /\ 0 <> 3) \/ (0 = 3 /\ 0 <> 0))%Z /\
  raster_line 5 (0, 0)%Z (0, 3)%Z = Err ZeroDivisionError.
Proof.
  split; [left; lia|]. apply raster_line_degenerate_axis. left; lia.
Defined.

(** C7 on concrete lines: the vertical line from [(0, 0)] to [(0, 3)] and
    the horizontal line from [(0, 0)] to [(3, 0)] both divide by zero instead
    of advancing along the non-zero axis. *)
Lemma raster_line_degenerate_axis_counterexample :
  raster_line 10 (0, 0)%Z (0, 3)%Z = Err ZeroDivisionError /\
  raster_line 10 (0, 0)%Z (3, 0)%Z = Err ZeroDivisionError.
Proof. split; vm_compute; reflexivity. Qed.

End RasterFacts.

(** ** [gen_segment] and [gen_path] *)
Module PathFacts.
Import Path.

Lemma bind_not_fuel {A B} (m : result A) (f : A -> result B) :
  m <> Err OutOfFuel -> (forall a, f a <> Err OutOfFuel) -> bind m f <> Err OutOfFuel.
Proof. destruct m as [a|e]; simpl; [auto | congruence]. Qed.

Lemma py_index_not_fuel {A} (l : list A) (i : Z) : py_index l i <> Err OutOfFuel.
Proof.
  unfold py_index.
  destruct (_ && _); [destruct (nth_error _ _)|destruct (_ && _); [destruct (nth_error _ _)|]];
    discriminate.
Qed.

Lemma pydiv_not_fuel (a b : Q) : pydiv a b <> Err OutOfFuel.
Proof. unfold pydiv. destruct (Qeq_bool b 0); discriminate. Qed.

Lemma raster_at_not_fuel (r : raster) (x y : Q) : raster_at r x y <> Err OutOfFuel.
Proof.
  unfold raster_at. apply bind_not_fuel; [apply py_index_not_fuel|].
  intro row. apply py_index_not_fuel.
Qed.

(** The loop guard [m * spacing < seg_dist] holds exactly for the first
    [ceil(seg_dist / spacing)] values of [m]. *)
Lemma below_iff (m : nat) (L sp : Q) :
  0 < sp ->
  (inject_Z (Z.of_nat m) * sp < L <-> (m < Z.to_nat (Qceiling (L / sp)))%nat).
Proof.
  intro Hsp. split; intro H.
  - apply Qlt_shift_div_l in H; [|exact Hsp].
    pose proof (Qle_ceiling (L / sp)) as Hc.
    assert (Hm : inject_Z (Z.of_nat m) < inject_Z (Qceiling (L / sp)))
      by (eapply Qlt_le_trans; eassumption).
    rewrite <- Zlt_Qlt in Hm. lia.
  - assert (Hz : (Z.of_nat m <= Qceiling (L / sp) - 1)%Z) by lia.
    rewrite Zle_Qle in Hz. pose proof (Qceiling_lt (L / sp)) as Hc.
    assert (Hm : inject_Z (Z.of_nat m) < L / sp) by (eapply Qle_lt_trans; eassumption).
    apply (Qmult_lt_r _ _ sp Hsp) in Hm.
    setoid_replace (L / sp * sp) with L in Hm; [exact Hm|].
    rewrite Qmult_comm. apply Qmult_div_r. intro E. lra.
Qed.

Lemma curr_succ (curr sp : Q) (m : nat) :
  curr == inject_Z (Z.of_nat m) * sp ->
  curr + sp == inject_Z (Z.of_nat (S m)) * sp.
Proof.
  intro Hc. rewrite Nat2Z.inj_succ, <- Z.add_1_r, inject_Z_plus, Hc.
  change (inject_Z 1) with 1. ring.
Qed.

Section Loop.

Variables (sp : Q) (r : raster) (ddx ddy L : Q).
Hypothesis Hsp : 0 < sp.

(** From [curr_dist = m * spacing], a finished loop has appended exactly
    [ceil(L / spacing) - m] samples to each list. *)
Lemma seg_loop_count (fuel : nat) :
  forall m curr x y xs ys zs xs' ys' zs',
  curr == inject_Z (Z.of_nat m) * sp ->
  seg_loop sp fuel r ddx ddy L curr x y (xs, ys, zs) = Ok (xs', ys', zs') ->
  length xs' = (length xs + (Z.to_nat (Qceiling (L / sp)) - m))%nat /\
  length ys' = (length ys + (Z.to_nat (Qceiling (L / sp)) - m))%nat /\
  length zs' = (length zs + (Z.to_nat (Qceiling (L / sp)) - m))%nat.
Proof.
  induction fuel as [|fuel IH];
    intros m curr x y xs ys zs xs' ys' zs' Hcurr Hrun; cbn [seg_loop] in Hrun.
  - destruct (Qltb curr L) eqn:Hg; [discriminate|].
    apply Qltb_false in Hg. rewrite Hcurr in Hg.
    assert (Hn : ~ (m < Z.to_nat (Qceiling (L / sp)))%nat).
    { rewrite <- (below_iff m L sp Hsp). apply Qle_not_lt. exact Hg. }
    injection Hrun as <- <- <-. lia.
  - destruct (Qltb curr L) eqn:Hg.
    + apply Qltb_true in Hg. rewrite Hcurr in Hg. apply (below_iff m L sp Hsp) in Hg.
      destruct (raster_at r x y) as [h|e]; [|discriminate]. cbn [bind] in Hrun.
      destruct (pydiv (ddx * sp) L) as [a|e]; [|discriminate]. cbn [bind] in Hrun.
      destruct (pydiv (ddy * sp) L) as [b|e]; [|discriminate]. cbn [bind] in Hrun.
      destruct (IH (S m) _ _ _ _ _ _ _ _ _ (curr_succ curr sp m Hcurr) Hrun)
        as [H1 [H2 H3]].
      rewrite !length_app in H1, H2, H3. simpl in H1, H2, H3. lia.
    + apply Qltb_false in Hg. rewrite Hcurr in Hg.
      assert (Hn : ~ (m < Z.to_nat (Qceiling (L / sp)))%nat).
      { rewrite <- (below_iff m L sp Hsp). apply Qle_not_lt. exact Hg. }
      injection Hrun as <- <- <-. lia.
Qed.

(** From [curr_dist = m * spacing], [ceil(L / spacing) - m] iterations of
    fuel are enough: the loop never runs out of fuel. *)
Lemma seg_loop_terminates (fuel : nat) :
  forall m curr x y acc,
  curr == inject_Z (Z.of_nat m) * sp ->
  (Z.to_nat (Qceiling (L / sp)) - m <= fuel)%nat ->
  seg_loop sp fuel r ddx ddy L curr x y acc <> Err OutOfFuel.
Proof.
  induction fuel as [|fuel IH]; intros m curr x y [[xs ys] zs] Hcurr Hfuel;
    cbn [seg_loop].
  - destruct (Qltb curr L) eqn:Hg; [|discriminate].
    apply Qltb_true in Hg. rewrite Hcurr in Hg. apply (below_iff m L sp Hsp) in Hg.
    lia.
  - destruct (Qltb curr L); [|discriminate].
    apply bind_not_fuel; [apply raster_at_not_fuel|]. intro h.
    apply bind_not_fuel; [apply pydiv_not_fuel|]. intro a.
    apply bind_not_fuel; [apply pydiv_not_fuel|]. intro b.
    apply (IH (S m)); [apply curr_succ; exact Hcurr | lia].
Qed.

End Loop.

Lemma seg_loop_start (curr sp : Q) : curr == 0 -> curr == inject_Z (Z.of_nat 0) * sp.
Proof. intro H. rewrite H. simpl. ring. Qed.

Lemma gen_segment_not_fuel (hypot : Q -> Q -> Q) (spacing : Q) (fuel : nat)
    (r : raster) (src_x src_y dest_x dest_y : Q) :
  0 < spacing ->
  (Z.to_nat (Qceiling (hypot (dest_x - src_x) (dest_y - src_y) / spacing)%Q) <= fuel)%nat ->
  gen_segment_sp hypot spacing fuel r (src_x, src_y) (dest_x, dest_y) <> Err OutOfFuel.
Proof.
  intros Hsp Hfuel. unfold gen_segment_sp. cbv beta iota zeta.
  apply bind_not_fuel.
  - apply (seg_loop_terminates spacing r _ _ _ Hsp fuel 0);
      [apply seg_loop_start; reflexivity | lia].
  - intros [[xs ys] zs]. apply bind_not_fuel; [apply raster_at_not_fuel|].
    intro h. discriminate.
Qed.

Lemma gen_path_pairs_not_fuel (hypot : Q -> Q -> Q) (spacing : Q) (r : raster) :
  0 < spacing ->
  forall wps, exists fuel0, forall acc fuel, (fuel0 <= fuel)%nat ->
  gen_path_pairs hypot spacing fuel r wps acc <> Err OutOfFuel.
Proof.
  intros Hsp wps. induction wps as [|w0 wps IH].
  - exists O. intros acc fuel _. discriminate.
  - destruct wps as [|w1 rest].
    + exists O. intros acc fuel _. discriminate.
    + destruct IH as [F1 HF1]. destruct w0 as [a b], w1 as [c d].
      exists (Nat.max (Z.to_nat (Qceiling (hypot (c - a) (d - b) / spacing))) F1).
      intros acc fuel Hf. cbn [gen_path_pairs].
      apply bind_not_fuel; [apply gen_segment_not_fuel; [exact Hsp | lia]|].
      intros [[x y] z]. destruct acc as [[xs ys] zs]. apply HF1. lia.
Qed.

(** ** Claims *)

(** C3: for a segment with [L = hypot(dx, dy) > 0] and [spacing > 0],
    a successful [gen_segment] returns [ceil(L / spacing) + 1] points in
    each of its three lists, the last one exactly at the destination. *)
Theorem gen_segment_point_count (hypot : Q -> Q -> Q) (spacing : Q) (fuel : nat)
    (r : raster) (src_x src_y dest_x dest_y : Q) (xs ys zs : list Q) :
  0 < spacing ->
  0 < hypot (dest_x - src_x) (dest_y - src_y) ->
  gen_segment_sp hypot spacing fuel r (src_x, src_y) (dest_x, dest_y) = Ok (xs, ys, zs) ->
  let n := S (Z.to_nat (Qceiling (hypot (dest_x - src_x) (dest_y - src_y) / spacing))) in
  length xs = n /\ length ys = n /\ length zs = n /\
  last xs 0 = dest_x /\ last ys 0 = dest_y.
Proof.
  intros Hsp _ Hrun n. unfold gen_segment_sp in Hrun. cbv beta iota zeta in Hrun.
  destruct (seg_loop spacing fuel r (dest_x - src_x) (dest_y - src_y)
              (hypot (dest_x - src_x) (dest_y - src_y)) 0 src_x src_y ([], [], []))
    as [[[xs0 ys0] zs0]|e] eqn:Hloop; [|discriminate].
  cbn [bind] in Hrun.
  destruct (raster_at r dest_x dest_y) as [h|e]; [|discriminate].
  cbn [bind] in Hrun. injection Hrun as <- <- <-.
  destruct (seg_loop_count spacing r _ _ _ Hsp fuel 0 0 src_x src_y [] [] []
              xs0 ys0 zs0 (seg_loop_start 0 spacing (Qeq_refl 0)) Hloop)
    as [H1 [H2 H3]].
  rewrite !length_app, !last_last. simpl in H1, H2, H3. unfold n. simpl length.
  repeat split; lia.
Qed.

Lemma gen_segment_point_count_witness :
  exists xs ys zs,
    gen_segment_sp hypot_q PATH_SPACING 20 (flat_raster 6 6 0) (0, 0) (3, 4) =
      Ok (xs, ys, zs) /\
    length xs = 11%nat /\ last xs 0 = 3 /\ last ys 0 = 4.
Proof.
  destruct (gen_segment_sp hypot_q PATH_SPACING 20 (flat_raster 6 6 0) (0, 0) (3, 4))
    as [[[xs ys] zs]|e] eqn:Hg; [|vm_compute in Hg; discriminate].
  exists xs, ys, zs. split; [reflexivity|].
  destruct (gen_segment_point_count hypot_q PATH_SPACING 20 (flat_raster 6 6 0)
              0 0 3 4 xs ys zs ltac:(vm_compute; reflexivity)
              ltac:(vm_compute; reflexivity) Hg) as [H1 [_ [_ [H4 H5]]]].
  split; [rewrite H1; vm_compute; reflexivity | split; assumption].
Defined.

(** C8: when [src == dst] (so [L = 0]), [gen_segment] does not enter its
    loop, hence never divides by [seg_dist]: it returns the single point
    [src] with [z = surface_raster[int(y)][int(x)] + HEIGHT_TOL], or the
    raster's own index error when [src] is outside the raster. *)
Theorem gen_segment_degenerate (hypot : Q -> Q -> Q) (spacing : Q) (fuel : nat)
    (r : raster) (x y : Q) :
  hypot (x - x) (y - y) == 0 ->
  gen_segment_sp hypot spacing fuel r (x, y) (x, y) =
    match raster_at r x y with
    | Ok h => Ok ([x], [y], [h + HEIGHT_TOL])
    | Err e => Err e
    end.
Proof.
  intro HL. unfold gen_segment_sp. cbv beta iota zeta.
  assert (Hloop : seg_loop spacing fuel r (x - x) (y - y) (hypot (x - x) (y - y))
                    0 x y ([], [], []) = Ok ([], [], [])).
  { destruct fuel; cbn [seg_loop]; rewrite (proj2 (Qltb_false _ _)) by lra;
      reflexivity. }
  rewrite Hloop. cbn [bind]. destruct (raster_at r x y); reflexivity.
Qed.

Lemma gen_segment_degenerate_witness :
  hypot_q (1 - 1) (1 - 1) == 0 /\
  gen_segment_sp hypot_q PATH_SPACING 0 (flat_raster 6 6 0) (1, 1) (1, 1) =
    match raster_at (flat_raster 6 6 0) 1 1 with
    | Ok h => Ok ([1], [1], [h + HEIGHT_TOL])
    | Err e => Err e
    end.
Proof.
  split; [vm_compute; reflexivity|].
  apply gen_segment_degenerate. vm_compute. reflexivity.
Defined.

(** C10: with [spacing > 0], the sampling loop of [gen_segment] needs at
    most [ceil(L / spacing)] iterations, and [gen_path] over any finite
    waypoint list finishes for some fuel bound (and every larger one). *)
Theorem gen_path_terminates (hypot : Q -> Q -> Q) (spacing : Q) :
  0 < spacing ->
  (forall fuel r src_x src_y dest_x dest_y,
     (Z.to_nat (Qceiling (hypot (dest_x - src_x) (dest_y - src_y) / spacing)%Q) <= fuel)%nat ->
     gen_segment_sp hypot spacing fuel r (src_x, src_y) (dest_x, dest_y) <> Err OutOfFuel) /\
  (forall r wps, exists fuel0, forall fuel, (fuel0 <= fuel)%nat ->
     gen_path_sp hypot spacing fuel r wps <> Err OutOfFuel).
Proof.
  intro Hsp. split.
  - intros. apply gen_segment_not_fuel; assumption.
  - intros r wps. destruct (gen_path_pairs_not_fuel hypot spacing r Hsp wps) as [F HF].
    exists F. intros fuel Hf. unfold gen_path_sp.
    destruct (length wps <? 2)%nat; [discriminate | apply HF; exact Hf].
Qed.

Lemma gen_path_terminates_witness :
  0 < PATH_SPACING /\
  gen_segment_sp hypot_q PATH_SPACING 10 (flat_raster 6 6 0) (0, 0) (3, 4) <> Err OutOfFuel.
Proof.
  split; [reflexivity|].
  apply (proj1 (gen_path_terminates hypot_q PATH_SPACING ltac:(reflexivity))).
  vm_compute. lia.
Defined.

End PathFacts.

(** ** [smooth_line]: the slope bound inside each peak interval *)
Module SmoothBounds.
Import Smooth.

Ltac split_ifs := repeat match goal with
  | |- context [if ?c then _ else _] => let E := fresh "E" in destruct c eqn:E
  end.

Lemma set_nth_length {A} (j : nat) (v : A) (l : list A) :
  length (set_nth j v l) = length l.
Proof.
  revert j. induction l as [|h t IH]; intro j; [destruct j; reflexivity|].
  destruct j; simpl; [reflexivity | rewrite IH; reflexivity].
Qed.

Lemma nth_set_nth_eq (j : nat) (v : Q) (l : list Q) :
  (j < length l)%nat -> nth j (set_nth j v l) 0 = v.
Proof.
  revert j. induction l as [|h t IH]; intros j Hj; simpl in Hj; [lia|].
  destruct j; simpl; [reflexivity | apply IH; lia].
Qed.

Lemma nth_set_nth_neq (j k : nat) (v : Q) (l : list Q) :
  k <> j -> nth k (set_nth j v l) 0 = nth k l 0.
Proof.
  revert j k. induction l as [|h t IH]; intros j k Hk; [destruct j; reflexivity|].
  destruct j, k; simpl; try reflexivity; [lia|]. apply IH. lia.
Qed.

Lemma fwd_step_length mhd s np j : length (fwd_step mhd s np j) = length np.
Proof. unfold fwd_step. split_ifs; try apply set_nth_length; reflexivity. Qed.

Lemma bwd_step_length mhd s np j : length (bwd_step mhd s np j) = length np.
Proof. unfold bwd_step. split_ifs; try apply set_nth_length; reflexivity. Qed.

Lemma fwd_step_frame mhd s np j k :
  k <> j -> nth k (fwd_step mhd s np j) 0 = nth k np 0.
Proof. intro Hk. unfold fwd_step. split_ifs; try apply nth_set_nth_neq; auto. Qed.

Lemma bwd_step_frame mhd s np j k :
  k <> j -> nth k (bwd_step mhd s np j) 0 = nth k np 0.
Proof. intro Hk. unfold bwd_step. split_ifs; try apply nth_set_nth_neq; auto. Qed.

(** After the step at [j], [new_points[j] >= new_points[j-1] - max_height_diff]. *)
Lemma fwd_step_bound mhd s np j :
  (j < length np)%nat ->
  nth (j - 1) np 0 - mhd <= nth j (fwd_step mhd s np j) 0.
Proof.
  intro Hj. unfold fwd_step. cbv zeta. split_ifs.
  - rewrite nth_set_nth_eq by exact Hj. lra.
  - apply Qltb_false in E0. exact E0.
  - apply Qltb_false in E. rewrite nth_set_nth_eq by exact Hj. lra.
  - apply Qltb_false in E. apply Qltb_false in E0. lra.
Qed.

(** After the step at [j], [new_points[j] >= new_points[j+1] - max_height_diff]. *)
Lemma bwd_step_bound mhd s np j :
  (j < length np)%nat ->
  nth (j + 1) np 0 - mhd <= nth j (bwd_step mhd s np j) 0.
Proof.
  intro Hj. unfold bwd_step. cbv zeta. split_ifs.
  - rewrite nth_set_nth_eq by exact Hj. lra.
  - apply Qltb_false in E0. exact E0.
  - apply Qltb_false in E. rewrite nth_set_nth_eq by exact Hj. lra.
  - apply Qltb_false in E. apply Qltb_false in E0. lra.
Qed.

Lemma fold_keep {B} (f : list Q -> B -> list Q) (k : nat) (l : list B) (x : list Q) :
  (forall b y, In b l -> nth k (f y b) 0 = nth k y 0) ->
  nth k (fold_left f l x) 0 = nth k x 0.
Proof.
  revert x. induction l as [|b l IH]; intros x H; [reflexivity|].
  simpl. rewrite IH; [apply H; left; reflexivity|].
  intros b' y Hb'. apply H. right. exact Hb'.
Qed.

Lemma fold_length {B} (f : list Q -> B -> list Q) (l : list B) (x : list Q) :
  (forall y b, length (f y b) = length y) -> length (fold_left f l x) = length x.
Proof.
  intro H. revert x. induction l as [|b l IH]; intro x; [reflexivity|].
  simpl. rewrite IH. apply H.
Qed.

(** The inner loop [for j in range(c, c + len)] of the negative-slope pass
    leaves every descent inside its range at most [max_height_diff]. *)
Lemma fwd_loop_bound mhd s (c len : nat) (np : list Q) :
  (1 <= c)%nat -> (c + len <= length np)%nat ->
  forall j, (c <= j < c + len)%nat ->
  nth (j - 1) (fold_left (fwd_step mhd s) (seq c len) np) 0 - mhd <=
  nth j (fold_left (fwd_step mhd s) (seq c len) np) 0.
Proof.
  intros Hc. induction len as [|len IH]; intros Hlen j Hj; [lia|].
  rewrite seq_S, fold_left_app. cbn [fold_left].
  set (R0 := fold_left (fwd_step mhd s) (seq c len) np).
  assert (HL : length R0 = length np)
    by (apply fold_length; intros; apply fwd_step_length).
  destruct (Nat.eq_dec j (c + len)) as [->|Hne].
  - rewrite fwd_step_frame by lia. apply fwd_step_bound. lia.
  - rewrite !fwd_step_frame by lia. apply IH; lia.
Qed.

(** The inner loop [for j in reversed(range(c, c + len))] of the
    non-negative-slope pass leaves every rise inside its range at most
    [max_height_diff]. *)
Lemma bwd_loop_bound mhd s (c len : nat) (np : list Q) :
  (c + len <= length np)%nat ->
  forall j, (c <= j < c + len)%nat ->
  nth (S j) (fold_left (bwd_step mhd s) (rev (seq c len)) np) 0 - mhd <=
  nth j (fold_left (bwd_step mhd s) (rev (seq c len)) np) 0.
Proof.
  revert np. induction len as [|len IH]; intros np Hlen j Hj; [lia|].
  rewrite seq_S, rev_app_distr. cbn [rev app fold_left].
  set (np1 := bwd_step mhd s np (c + len)).
  assert (HL : length np1 = length np) by apply bwd_step_length.
  destruct (Nat.eq_dec j (c + len)) as [->|Hne].
  - rewrite !(fold_keep _ _ (rev (seq c len)) np1)
      by (intros b y Hb; apply bwd_step_frame; apply in_rev, in_seq in Hb; lia).
    unfold np1. rewrite bwd_step_frame by lia. rewrite <- Nat.add_1_r.
    apply bwd_step_bound. lia.
  - apply IH; lia.
Qed.

Lemma fwd_interval_length mhd inds slopes np i :
  length (fwd_interval mhd inds slopes np i) = length np.
Proof.
  unfold fwd_interval. destruct (Qle_bool 0 _); [reflexivity|].
  apply fold_length. intros. apply fwd_step_length.
Qed.

Lemma bwd_interval_length mhd inds slopes np i :
  length (bwd_interval mhd inds slopes np i) = length np.
Proof.
  unfold bwd_interval. destruct (Qltb _ 0); [reflexivity|].
  apply fold_length. intros. apply bwd_step_length.
Qed.

(** Iteration [i] of the negative-slope pass writes only to indices in
    [(peak_inds[i], peak_inds[i+1]]]. *)
Lemma fwd_interval_frame mhd inds slopes np i k :
  (k <= nth i inds O \/ nth (i + 1) inds O < k)%nat ->
  nth k (fwd_interval mhd inds slopes np i) 0 = nth k np 0.
Proof.
  intro Hk. unfold fwd_interval. destruct (Qle_bool 0 _); [reflexivity|].
  apply fold_keep. intros b y Hb. apply in_seq in Hb. apply fwd_step_frame. lia.
Qed.

(** Iteration [i] of the non-negative-slope pass writes only to indices in
    [[peak_inds[i], peak_inds[i+1])]. *)
Lemma bwd_interval_frame mhd inds slopes np i k :
  (k < nth i inds O \/ nth (i + 1) inds O <= k)%nat ->
  nth k (bwd_interval mhd inds slopes np i) 0 = nth k np 0.
Proof.
  intro Hk. unfold bwd_interval. destruct (Qltb _ 0); [reflexivity|].
  apply fold_keep. intros b y Hb. apply in_rev, in_seq in Hb. apply bwd_step_frame. lia.
Qed.

Lemma pw_le_nth (l1 l2 : list Q) (k : nat) : pw_le l1 l2 -> nth k l1 0 <= nth k l2 0.
Proof.
  unfold pw_le. intro H. revert k.
  induction H as [|a b l1 l2 Hab H IH]; intro k; [destruct k; apply Qle_refl|].
  destruct k; simpl; [exact Hab | apply IH].
Qed.

Lemma incr_nth (pk : list peak) :
  SmoothFacts.incr pk -> forall i j, (i < j < length pk)%nat ->
  (fst (nth i pk (O, 0%Q)) < fst (nth j pk (O, 0%Q)))%nat.
Proof.
  induction pk as [|[i0 v0] pk IH]; intros Hinc i j Hij; simpl in Hij; [lia|].
  destruct pk as [|[i1 v1] pk']; simpl in Hij; [lia|].
  destruct Hinc as [H01 Hinc].
  destruct j as [|j]; [lia|].
  destruct i as [|i].
  - destruct j as [|j]; [exact H01|].
    specialize (IH Hinc 0%nat (S j) ltac:(simpl; lia)). simpl in IH |- *. lia.
  - specialize (IH Hinc i j ltac:(simpl; lia)). simpl in IH |- *. exact IH.
Qed.

Lemma nth_map_fst (pk : list peak) (k : nat) :
  nth k (map fst pk) O = fst (nth k pk (O, 0%Q)).
Proof. exact (map_nth fst pk (O, 0%Q) k). Qed.

Lemma inds_le (pk : list peak) :
  SmoothFacts.incr pk -> forall i j, (i <= j < length pk)%nat ->
  (nth i (map fst pk) O <= nth j (map fst pk) O)%nat.
Proof.
  intros Hinc i j Hij.
  rewrite !nth_map_fst.
  destruct (Nat.eq_dec i j) as [->|Hne]; [lia|].
  pose proof (incr_nth pk Hinc i j ltac:(lia)). lia.
Qed.

Lemma calc_slopes_length (pk : list peak) (ss : list Q) :
  calc_slopes pk = Ok ss -> length ss = (length pk - 1)%nat.
Proof.
  revert ss. induction pk as [|[i0 v0] pk IH]; intros ss H.
  - inversion H; reflexivity.
  - destruct pk as [|[i1 v1] pk']; [inversion H; reflexivity|].
    rewrite SmoothFacts.calc_slopes_cons in H.
    destruct (pydiv _ _) as [s|e]; [|discriminate]. cbn [bind] in H.
    destruct (calc_slopes ((i1, v1) :: pk')) as [ss'|e] eqn:E; [|discriminate].
    cbn [bind] in H. injection H as <-.
    specialize (IH ss' E). simpl in IH |- *. lia.
Qed.

(** A successful run of [smooth_line] is the two passes over the peak
    intervals, and its input has at least two elements. *)
Lemma smooth_line_run (points : list Q) (mhd : Q) (out slopes : list Q) :
  smooth_line points mhd = Ok out ->
  calc_slopes (peaks_of points) = Ok slopes ->
  (2 <= length points)%nat /\
  out = fold_left (bwd_interval mhd (peak_inds points) slopes) (rev (seq 0 (length slopes)))
          (fold_left (fwd_interval mhd (peak_inds points) slopes)
             (seq 0 (length slopes)) points).
Proof.
  intros H Hs. destruct points as [|a [|b rest]].
  - discriminate H.
  - cbv in H. discriminate H.
  - unfold smooth_line in H. rewrite py_index_head in H. cbn [bind] in H.
    rewrite Hs in H. cbn [bind] in H. injection H as <-.
    split; [simpl; lia | reflexivity].
Qed.

Lemma seq_split (n i : nat) :
  (i < n)%nat -> seq 0 n = seq 0 i ++ i :: seq (S i) (n - S i).
Proof.
  intro Hi. pose proof (seq_app i (S (n - S i)) 0) as E.
  replace (i + S (n - S i))%nat with n in E by lia. rewrite E. reflexivity.
Qed.

Lemma inds_lt_len (points : list Q) (k : nat) :
  (2 <= length points)%nat -> (k < length (peaks_of points))%nat ->
  (nth k (peak_inds points) O < length points)%nat.
Proof.
  intros Hlen Hk. destruct (SmoothFacts.peaks_of_inv points Hlen) as [_ HF].
  unfold peak_inds. rewrite nth_map_fst.
  rewrite Forall_forall in HF. exact (proj1 (HF _ (nth_In _ _ Hk))).
Qed.

(** In the result of [smooth_line], inside every peak interval
    [(peak_inds[i], peak_inds[i+1]]] of negative slope, no step descends by
    more than [max_height_diff]: the negative-slope pass establishes it and
    the later non-negative-slope pass only raises the right-hand ends. *)
Theorem smooth_line_descent_capped (points : list Q) (mhd : Q) (out slopes : list Q)
    (i j : nat) :
  smooth_line points mhd = Ok out ->
  calc_slopes (peaks_of points) = Ok slopes ->
  nth i slopes 0 < 0 ->
  (nth i (peak_inds points) O < j <= nth (S i) (peak_inds points) O)%nat ->
  nth (j - 1) out 0 - nth j out 0 <= mhd.
Proof.
  intros Hrun Hs Hneg Hj.
  destruct (smooth_line_run points mhd out slopes Hrun Hs) as [Hlen ->].
  destruct (SmoothFacts.peaks_of_inv points Hlen) as [Hinc _].
  pose proof (calc_slopes_length _ _ Hs) as Hls.
  pose proof (inds_le _ Hinc) as Hsorted. fold (peak_inds points) in Hsorted.
  set (n := length slopes) in *. set (inds := peak_inds points) in *.
  assert (Hi : (i < n)%nat).
  { destruct (Nat.lt_ge_cases i n) as [H|H]; [exact H|].
    rewrite nth_overflow in Hneg by lia. exfalso. apply (Qlt_irrefl 0). exact Hneg. }
  assert (Hb : (nth (S i) inds O < length points)%nat) by (apply inds_lt_len; lia).
  set (G := fold_left (fwd_interval mhd inds slopes) (seq 0 i) points).
  set (F1 := fwd_interval mhd inds slopes G i).
  set (F := fold_left (fwd_interval mhd inds slopes) (seq 0 n) points).
  assert (HFeq : F = fold_left (fwd_interval mhd inds slopes) (seq (S i) (n - S i)) F1).
  { unfold F, F1, G. rewrite (seq_split n i Hi), fold_left_app. reflexivity. }
  assert (HG : length G = length points)
    by (apply fold_length; intros; apply fwd_interval_length).
  assert (B1 : nth (j - 1) F1 0 - mhd <= nth j F1 0).
  { unfold F1, fwd_interval.
    destruct (Qle_bool 0 (nth i slopes 0)) eqn:E; [apply Qle_bool_iff in E; lra|].
    cbv zeta. replace (i + 1)%nat with (S i) by lia.
    apply fwd_loop_bound; lia. }
  assert (K : forall k, (k <= nth (S i) inds O)%nat -> nth k F 0 = nth k F1 0).
  { intros k Hk. rewrite HFeq. apply fold_keep. intros b y Hb'. apply in_seq in Hb'.
    apply fwd_interval_frame. left. pose proof (Hsorted (S i) b ltac:(lia)). lia. }
  set (out := fold_left (bwd_interval mhd inds slopes) (rev (seq 0 n)) F).
  assert (Hraise : nth j F 0 <= nth j out 0).
  { apply pw_le_nth. apply (fold_left_preserve pw_le (bwd_interval mhd inds slopes));
      [exact pw_le_refl | exact pw_le_trans | exact (SmoothFacts.bwd_interval_raise mhd inds slopes)]. }
  assert (Hkeep : nth (j - 1) out 0 = nth (j - 1) F 0).
  { apply fold_keep. intros i' y Hi'. apply in_rev, in_seq in Hi'.
    destruct (Nat.lt_trichotomy i' i) as [Hlt|[->|Hgt]].
    - apply bwd_interval_frame. right. replace (i' + 1)%nat with (S i') by lia.
      pose proof (Hsorted (S i') i ltac:(lia)). lia.
    - unfold bwd_interval. rewrite (proj2 (Qltb_true _ _) Hneg). reflexivity.
    - apply bwd_interval_frame. left. pose proof (Hsorted (S i) i' ltac:(lia)). lia. }
  rewrite Hkeep, (K (j - 1)%nat) by lia. rewrite (K j) in Hraise by lia. lra.
Qed.

(** In the result of [smooth_line], inside every peak interval
    [[peak_inds[i], peak_inds[i+1])] of non-negative slope, no step rises by
    more than [max_height_diff]: the non-negative-slope pass, which runs
    last and right to left, establishes it and never revisits the
    interval. *)
Theorem smooth_line_ascent_capped (points : list Q) (mhd : Q) (out slopes : list Q)
    (i j : nat) :
  smooth_line points mhd = Ok out ->
  calc_slopes (peaks_of points) = Ok slopes ->
  0 <= nth i slopes 0 ->
  (nth i (peak_inds points) O <= j < nth (S i) (peak_inds points) O)%nat ->
  nth (S j) out 0 - nth j out 0 <= mhd.
Proof.
  intros Hrun Hs Hpos Hj.
  destruct (smooth_line_run points mhd out slopes Hrun Hs) as [Hlen ->].
  destruct (SmoothFacts.peaks_of_inv points Hlen) as [Hinc _].
  pose proof (calc_slopes_length _ _ Hs) as Hls.
  pose proof (inds_le _ Hinc) as Hsorted. fold (peak_inds points) in Hsorted.
  assert (HSi : (S i < length (peaks_of points))%nat).
  { destruct (Nat.lt_ge_cases (S i) (length (peaks_of points))) as [H|H]; [exact H|].
    unfold peak_inds in Hj. rewrite (nth_overflow (map fst (peaks_of points)) (n:=S i)) in Hj
      by (rewrite length_map; unfold peak in *; lia). lia. }
  set (n := length slopes) in *. set (inds := peak_inds points) in *.
  assert (Hi : (i < n)%nat) by lia.
  assert (Hb : (nth (S i) inds O < length points)%nat) by (apply inds_lt_len; lia).
  set (F := fold_left (fwd_interval mhd inds slopes) (seq 0 n) points).
  assert (HFl : length F = length points)
    by (apply fold_length; intros; apply fwd_interval_length).
  set (H0 := fold_left (bwd_interval mhd inds slopes) (rev (seq (S i) (n - S i))) F).
  assert (HH0 : length H0 = length points)
    by (unfold H0; rewrite fold_length; [exact HFl | intros; apply bwd_interval_length]).
  set (B1 := bwd_interval mhd inds slopes H0 i).
  assert (Hout : fold_left (bwd_interval mhd inds slopes) (rev (seq 0 n)) F =
                 fold_left (bwd_interval mhd inds slopes) (rev (seq 0 i)) B1).
  { unfold B1, H0. rewrite (seq_split n i Hi), rev_app_distr. cbn [rev].
    rewrite !fold_left_app. reflexivity. }
  assert (Bd : nth (S j) B1 0 - mhd <= nth j B1 0).
  { unfold B1, bwd_interval. rewrite (proj2 (Qltb_false _ _) Hpos).
    cbv zeta. replace (i + 1)%nat with (S i) by lia.
    apply bwd_loop_bound; lia. }
  assert (K : forall k, (nth i inds O <= k)%nat ->
    nth k (fold_left (bwd_interval mhd inds slopes) (rev (seq 0 i)) B1) 0 = nth k B1 0).
  { intros k Hk. apply fold_keep. intros i' y Hi'. apply in_rev, in_seq in Hi'.
    apply bwd_interval_frame. right. replace (i' + 1)%nat with (S i') by lia.
    pose proof (Hsorted (S i') i ltac:(lia)). lia. }
  rewrite Hout, !K by lia. lra.
Qed.

(** The descent bound at a concrete input: on [[10;0;0;9]] the single
    peak interval [(0, 3]] has slope [-1/3]. *)
Lemma smooth_line_descent_capped_witness :
  exists out ss, smooth_line [10; 0; 0; 9] 1 = Ok out /\
    calc_slopes (peaks_of [10; 0; 0; 9]) = Ok ss /\ nth 0 ss 0 < 0 /\
    nth 1 out 0 - nth 2 out 0 <= 1.
Proof.
  destruct (smooth_line [10; 0; 0; 9] 1) as [out|e] eqn:E; [|vm_compute in E; discriminate].
  destruct (calc_slopes (peaks_of [10; 0; 0; 9])) as [ss|e] eqn:Es;
    [|vm_compute in Es; discriminate].
  assert (Hs : nth 0 ss 0 < 0) by (vm_compute in Es; injection Es as <-; vm_compute; reflexivity).
  exists out, ss. split; [reflexivity|]. split; [reflexivity|]. split; [exact Hs|].
  apply (smooth_line_descent_capped [10; 0; 0; 9] 1 out ss 0 2 E Es Hs).
  vm_compute. lia.
Defined.

(** The ascent bound at a concrete input: on [[0;5;0;6]] the first peak
    interval [[0, 1)] has slope [5]. *)
Lemma smooth_line_ascent_capped_witness :
  exists out ss, smooth_line [0; 5; 0; 6] 1 = Ok out /\
    calc_slopes (peaks_of [0; 5; 0; 6]) = Ok ss /\ 0 <= nth 0 ss 0 /\
    nth 1 out 0 - nth 0 out 0 <= 1.
Proof.
  destruct (smooth_line [0; 5; 0; 6] 1) as [out|e] eqn:E; [|vm_compute in E; discriminate].
  destruct (calc_slopes (peaks_of [0; 5; 0; 6])) as [ss|e] eqn:Es;
    [|vm_compute in Es; discriminate].
  assert (Hs : 0 <= nth 0 ss 0) by (vm_compute in Es; injection Es as <-; vm_compute; discriminate).
  exists out, ss. split; [reflexivity|]. split; [reflexivity|]. split; [exact Hs|].
  apply (smooth_line_ascent_capped [0; 5; 0; 6] 1 out ss 0 0 E Es Hs).
  vm_compute. lia.
Defined.

End SmoothBounds.

(** ** [gen_segment] and [gen_path]: structure of the generated path *)
Module PathShape.
Import Path.

(** [x_points.extend(x)], [y_points.extend(y)], [z_points.extend(z)]. *)
Definition concat3 (p q : points3) : points3 :=
  let '(xs, ys, zs) := p in
  let '(xs', ys', zs') := q in
  (xs ++ xs', ys ++ ys', zs ++ zs').

(** Every sample [k] of [(xs, ys, zs)] lies [HEIGHT_TOL] above the raster
    cell [surface_raster[int(y_k)][int(x_k)]]. *)
Definition above_surface (r : raster) (p : points3) : Prop :=
  let '(xs, ys, zs) := p in
  length xs = length zs /\ length ys = length zs /\
  forall k, (k < length zs)%nat ->
    exists h, raster_at r (nth k xs 0) (nth k ys 0) = Ok h /\ nth k zs 0 = h + HEIGHT_TOL.

(** Number of points of [gen_path]: [ceil(L / spacing) + 1] per consecutive
    waypoint pair, [L] being the [hypot] of the pair's delta. *)
Fixpoint seg_counts (hypot : Q -> Q -> Q) (sp : Q) (wps : list (Q * Q)) : nat :=
  match wps with
  | (a, b) :: (((c, d) :: _) as rest) =>
      Nat.add (S (Z.to_nat (Qceiling (hypot (c - a) (d - b) / sp))))
        (seg_counts hypot sp rest)
  | _ => O
  end.

Lemma gen_path_pairs_cons (hypot : Q -> Q -> Q) (sp : Q) (fuel : nat) (r : raster)
    (w0 w1 : Q * Q) (rest : list (Q * Q)) (acc : points3) :
  gen_path_pairs hypot sp fuel r (w0 :: w1 :: rest) acc =
  (seg <- gen_segment_sp hypot sp fuel r w0 w1;
   let '(x, y, z) := seg in
   let '(xs, ys, zs) := acc in
   gen_path_pairs hypot sp fuel r (w1 :: rest) (xs ++ x, ys ++ y, zs ++ z)).
Proof. reflexivity. Qed.

Lemma gen_path_pairs_acc (hypot : Q -> Q -> Q) (sp : Q) (fuel : nat) (r : raster)
    (wps : list (Q * Q)) (acc : points3) :
  gen_path_pairs hypot sp fuel r wps acc =
  (p <- gen_path_pairs hypot sp fuel r wps ([], [], []); Ok (concat3 acc p)).
Proof.
  revert acc. induction wps as [|w0 wps IH]; intros [[xs ys] zs].
  - simpl. rewrite !app_nil_r. reflexivity.
  - destruct wps as [|w1 rest]; [simpl; rewrite !app_nil_r; reflexivity|].
    rewrite !gen_path_pairs_cons.
    destruct (gen_segment_sp hypot sp fuel r w0 w1) as [[[x y] z]|e]; cbn [bind];
      [|reflexivity].
    rewrite (IH (xs ++ x, ys ++ y, zs ++ z)), (IH ([] ++ x, [] ++ y, [] ++ z)).
    destruct (gen_path_pairs hypot sp fuel r (w1 :: rest) ([], [], []))
      as [[[a b] c]|e]; cbn [bind]; [|reflexivity].
    simpl. rewrite !app_assoc. reflexivity.
Qed.

Lemma last_app_ne {A} (l1 l2 : list A) (d : A) :
  l2 <> [] -> last (l1 ++ l2) d = last l2 d.
Proof.
  intro H. induction l1 as [|a l1 IH]; [reflexivity|].
  rewrite <- app_comm_cons. simpl. rewrite IH.
  destruct (l1 ++ l2) eqn:E; [|reflexivity].
  apply app_eq_nil in E. destruct E as [_ E]. contradiction.
Qed.

Lemma seg_loop_prefix (sp : Q) (fuel : nat) (r : raster) (dx dy L : Q) :
  forall curr x y xs ys zs xs' ys' zs',
  seg_loop sp fuel r dx dy L curr x y (xs, ys, zs) = Ok (xs', ys', zs') ->
  exists tx ty, xs' = xs ++ tx /\ ys' = ys ++ ty.
Proof.
  induction fuel as [|fuel IH]; intros curr x y xs ys zs xs' ys' zs' Hrun;
    cbn [seg_loop] in Hrun.
  - destruct (Qltb curr L); [discriminate|]. injection Hrun as <- <- <-.
    exists [], []. rewrite !app_nil_r. split; reflexivity.
  - destruct (Qltb curr L); [|injection Hrun as <- <- <-; exists [], [];
      rewrite !app_nil_r; split; reflexivity].
    destruct (raster_at r x y) as [h|e]; [|discriminate]. cbn [bind] in Hrun.
    destruct (pydiv (dx * sp) L) as [a|e]; [|discriminate]. cbn [bind] in Hrun.
    destruct (pydiv (dy * sp) L) as [b|e]; [|discriminate]. cbn [bind] in Hrun.
    destruct (IH _ _ _ _ _ _ _ _ _ Hrun) as [tx [ty [-> ->]]].
    exists ([x] ++ tx), ([y] ++ ty). rewrite !app_assoc. split; reflexivity.
Qed.

Lemma above_surface_app (r : raster) (p q : points3) :
  above_surface r p -> above_surface r q -> above_surface r (concat3 p q).
Proof.
  destruct p as [[xs ys] zs], q as [[xs' ys'] zs']. simpl.
  intros [Hx [Hy Hp]] [Hx' [Hy' Hq]]. rewrite !length_app.
  split; [lia|]. split; [lia|]. intros k Hk.
  destruct (Nat.lt_ge_cases k (length zs)) as [Hlt|Hge].
  - rewrite !app_nth1 by lia. apply Hp. exact Hlt.
  - rewrite !app_nth2 by lia. rewrite Hx, Hy. apply Hq. lia.
Qed.

Lemma above_surface_one (r : raster) (x y h : Q) :
  raster_at r x y = Ok h -> above_surface r ([x], [y], [h + HEIGHT_TOL]).
Proof.
  intro Hh. simpl. split; [reflexivity|]. split; [reflexivity|].
  intros k Hk. destruct k; [|lia]. exists h. split; [exact Hh | reflexivity].
Qed.

Lemma seg_loop_above (sp : Q) (fuel : nat) (r : raster) (dx dy L : Q) :
  forall curr x y acc res,
  above_surface r acc ->
  seg_loop sp fuel r dx dy L curr x y acc = Ok res -> above_surface r res.
Proof.
  induction fuel as [|fuel IH]; intros curr x y [[xs ys] zs] res Hacc Hrun;
    cbn [seg_loop] in Hrun.
  - destruct (Qltb curr L); [discriminate|]. injection Hrun as <-. exact Hacc.
  - destruct (Qltb curr L); [|injection Hrun as <-; exact Hacc].
    destruct (raster_at r x y) as [h|e] eqn:Hh; [|discriminate]. cbn [bind] in Hrun.
    destruct (pydiv (dx * sp) L) as [a|e]; [|discriminate]. cbn [bind] in Hrun.
    destruct (pydiv (dy * sp) L) as [b|e]; [|discriminate]. cbn [bind] in Hrun.
    apply (IH _ _ _ _ _ (above_surface_app r (xs, ys, zs) _ Hacc
                          (above_surface_one r x y h Hh)) Hrun).
Qed.

Lemma gen_segment_above (hypot : Q -> Q -> Q) (sp : Q) (fuel : nat) (r : raster)
    (wp0 wp1 : Q * Q) (res : points3) :
  gen_segment_sp hypot sp fuel r wp0 wp1 = Ok res -> above_surface r res.
Proof.
  destruct wp0 as [src_x src_y], wp1 as [dest_x dest_y].
  unfold gen_segment_sp. cbv beta iota zeta. intro Hrun.
  destruct (seg_loop sp fuel r _ _ _ 0 src_x src_y ([], [], [])) as [[[xs ys] zs]|e]
    eqn:Hloop; [|discriminate]. cbn [bind] in Hrun.
  destruct (raster_at r dest_x dest_y) as [h|e] eqn:Hh; [|discriminate].
  cbn [bind] in Hrun. injection Hrun as <-.
  apply (above_surface_app r (xs, ys, zs) ([dest_x], [dest_y], [h + HEIGHT_TOL])).
  - eapply seg_loop_above; [|exact Hloop].
    simpl. split; [reflexivity|]. split; [reflexivity|]. intros k Hk. lia.
  - apply above_surface_one. exact Hh.
Qed.

Lemma gen_segment_shape (hypot : Q -> Q -> Q) (sp : Q) (fuel : nat) (r : raster)
    (src_x src_y dest_x dest_y : Q) (xs ys zs : list Q) :
  gen_segment_sp hypot sp fuel r (src_x, src_y) (dest_x, dest_y) = Ok (xs, ys, zs) ->
  xs <> [] /\ ys <> [] /\ last xs 0 = dest_x /\ last ys 0 = dest_y /\
  (0 < hypot (dest_x - src_x) (dest_y - src_y) -> hd 0 xs = src_x /\ hd 0 ys = src_y).
Proof.
  unfold gen_segment_sp. cbv beta iota zeta. intro Hrun.
  destruct (seg_loop sp fuel r _ _ _ 0 src_x src_y ([], [], [])) as [[[xs0 ys0] zs0]|e]
    eqn:Hloop; [|discriminate]. cbn [bind] in Hrun.
  destruct (raster_at r dest_x dest_y) as [h|e]; [|discriminate].
  cbn [bind] in Hrun. injection Hrun as <- <- <-.
  split; [intro E; apply app_eq_nil in E; destruct E as [_ E]; discriminate|].
  split; [intro E; apply app_eq_nil in E; destruct E as [_ E]; discriminate|].
  rewrite !last_last. split; [reflexivity|]. split; [reflexivity|].
  intro HL. destruct fuel as [|fuel]; cbn [seg_loop] in Hloop;
    rewrite (proj2 (Qltb_true _ _) HL) in Hloop; [discriminate|].
  destruct (raster_at r src_x src_y) as [h0|e]; [|discriminate]. cbn [bind] in Hloop.
  destruct (pydiv _ _) as [a|e]; [|discriminate]. cbn [bind] in Hloop.
  destruct (pydiv _ _) as [b|e]; [|discriminate]. cbn [bind] in Hloop.
  destruct (seg_loop_prefix _ _ _ _ _ _ _ _ _ _ _ _ _ _ _ Hloop) as [tx [ty [-> ->]]].
  split; reflexivity.
Qed.

Lemma gen_segment_length (hypot : Q -> Q -> Q) (sp : Q) (fuel : nat) (r : raster)
    (src_x src_y dest_x dest_y : Q) (xs ys zs : list Q) :
  0 < sp ->
  gen_segment_sp hypot sp fuel r (src_x, src_y) (dest_x, dest_y) = Ok (xs, ys, zs) ->
  let n := S (Z.to_nat (Qceiling (hypot (dest_x - src_x) (dest_y - src_y) / sp))) in
  length xs = n /\ length ys = n /\ length zs = n.
Proof.
  intros Hsp Hrun n. unfold gen_segment_sp in Hrun. cbv beta iota zeta in Hrun.
  destruct (seg_loop sp fuel r _ _ _ 0 src_x src_y ([], [], [])) as [[[xs0 ys0] zs0]|e]
    eqn:Hloop; [|discriminate]. cbn [bind] in Hrun.
  destruct (raster_at r dest_x dest_y) as [h|e]; [|discriminate].
  cbn [bind] in Hrun. injection Hrun as <- <- <-.
  destruct (PathFacts.seg_loop_count sp r _ _ _ Hsp fuel 0 0 src_x src_y [] [] []
              xs0 ys0 zs0 (PathFacts.seg_loop_start 0 sp (Qeq_refl 0)) Hloop)
    as [H1 [H2 H3]].
  rewrite !length_app. simpl in H1, H2, H3. unfold n. simpl length. lia.
Qed.

Section Samples.

Variables (sp : Q) (r : raster) (dx dy L src_x src_y : Q).

(** Sample [k] of the loop is [src + k * (delta * spacing / seg_dist)],
    taken while [k * spacing < seg_dist]. *)
Definition on_segment (xs ys : list Q) : Prop :=
  length ys = length xs /\
  forall k, (k < length xs)%nat ->
    nth k xs 0 == src_x + inject_Z (Z.of_nat k) * (dx * sp / L) /\
    nth k ys 0 == src_y + inject_Z (Z.of_nat k) * (dy * sp / L) /\
    inject_Z (Z.of_nat k) * sp < L.

Lemma seg_loop_on_segment (fuel : nat) :
  forall curr x y xs ys zs xs' ys' zs',
  curr == inject_Z (Z.of_nat (length xs)) * sp ->
  x == src_x + inject_Z (Z.of_nat (length xs)) * (dx * sp / L) ->
  y == src_y + inject_Z (Z.of_nat (length xs)) * (dy * sp / L) ->
  on_segment xs ys ->
  seg_loop sp fuel r dx dy L curr x y (xs, ys, zs) = Ok (xs', ys', zs') ->
  on_segment xs' ys'.
Proof.
  induction fuel as [|fuel IH]; intros curr x y xs ys zs xs' ys' zs' Hc Hx Hy Hon Hrun;
    cbn [seg_loop] in Hrun.
  - destruct (Qltb curr L); [discriminate|]. injection Hrun as <- <- <-. exact Hon.
  - destruct (Qltb curr L) eqn:Hg; [|injection Hrun as <- <- <-; exact Hon].
    apply Qltb_true in Hg.
    destruct (raster_at r x y) as [h|e]; [|discriminate]. cbn [bind] in Hrun.
    unfold pydiv in Hrun. destruct (Qeq_bool L 0); [discriminate|]. cbn [bind] in Hrun.
    destruct Hon as [Hlen Hon].
    refine (IH _ _ _ _ _ _ _ _ _ _ _ _ _ Hrun).
    + rewrite length_app. simpl length. rewrite Nat.add_1_r.
      apply PathFacts.curr_succ. exact Hc.
    + rewrite length_app. simpl length. rewrite Nat.add_1_r, Nat2Z.inj_succ,
        <- Z.add_1_r, inject_Z_plus, Hx. change (inject_Z 1) with 1. ring.
    + rewrite length_app. simpl length. rewrite Nat.add_1_r, Nat2Z.inj_succ,
        <- Z.add_1_r, inject_Z_plus, Hy. change (inject_Z 1) with 1. ring.
    + split; [rewrite !length_app, Hlen; reflexivity|].
      intros k Hk. rewrite length_app in Hk. simpl in Hk.
      destruct (Nat.lt_ge_cases k (length xs)) as [Hlt|Hge].
      * rewrite !app_nth1 by lia. apply Hon. exact Hlt.
      * assert (k = length xs) as -> by lia.
        rewrite !app_nth2 by lia. rewrite Hlen, Nat.sub_diag. simpl.
        split; [exact Hx|]. split; [exact Hy|]. rewrite <- Hc. exact Hg.
Qed.

End Samples.

Lemma gen_path_sp_long (hypot : Q -> Q -> Q) (sp : Q) (fuel : nat) (r : raster)
    (w0 w1 : Q * Q) (rest : list (Q * Q)) :
  gen_path_sp hypot sp fuel r (w0 :: w1 :: rest) =
  gen_path_pairs hypot sp fuel r (w0 :: w1 :: rest) ([], [], []).
Proof. reflexivity. Qed.

Lemma seg_counts_cons (hypot : Q -> Q -> Q) (sp : Q) (a b c d : Q) (rest : list (Q * Q)) :
  seg_counts hypot sp ((a, b) :: (c, d) :: rest) =
  Nat.add (S (Z.to_nat (Qceiling (hypot (c - a) (d - b) / sp))))
    (seg_counts hypot sp ((c, d) :: rest)).
Proof. reflexivity. Qed.

(** [gen_path] is the concatenation of the first segment with [gen_path] of
    the remaining waypoints: the loop over pairs with its [extend] calls is
    a plain recursion, and an error in any segment is the error of the whole
    path. *)
Lemma gen_path_cons (hypot : Q -> Q -> Q) (sp : Q) (fuel : nat) (r : raster)
    (w0 w1 : Q * Q) (rest : list (Q * Q)) :
  gen_path_sp hypot sp fuel r (w0 :: w1 :: rest) =
  (seg <- gen_segment_sp hypot sp fuel r w0 w1;
   p <- gen_path_sp hypot sp fuel r (w1 :: rest);
   Ok (concat3 seg p)).
Proof.
  rewrite gen_path_sp_long, gen_path_pairs_cons.
  destruct (gen_segment_sp hypot sp fuel r w0 w1) as [[[x y] z]|e]; cbn [bind];
    [|reflexivity].
  rewrite gen_path_pairs_acc.
  destruct rest as [|w2 rest'].
  - simpl. reflexivity.
  - rewrite gen_path_sp_long. reflexivity.
Qed.

(** With [spacing > 0], a successful [gen_path] returns, in each of its
    three lists, [ceil(L_i / spacing) + 1] points per consecutive waypoint
    pair [i] (a pair with [L_i <= 0] contributes one point): the shared
    waypoint between two segments is emitted twice. *)
Theorem gen_path_length (hypot : Q -> Q -> Q) (sp : Q) (fuel : nat) (r : raster)
    (wps : list (Q * Q)) (xs ys zs : list Q) :
  0 < sp ->
  gen_path_sp hypot sp fuel r wps = Ok (xs, ys, zs) ->
  length xs = seg_counts hypot sp wps /\ length ys = seg_counts hypot sp wps /\
  length zs = seg_counts hypot sp wps.
Proof.
  intro Hsp. revert xs ys zs. induction wps as [|w0 wps IH]; intros xs ys zs Hrun.
  - simpl in Hrun. injection Hrun as <- <- <-. repeat split.
  - destruct wps as [|w1 rest];
      [destruct w0; simpl in Hrun; injection Hrun as <- <- <-; repeat split|].
    rewrite gen_path_cons in Hrun. destruct w0 as [a b], w1 as [c d].
    destruct (gen_segment_sp hypot sp fuel r (a, b) (c, d)) as [[[x y] z]|e] eqn:Hseg;
      [|discriminate]. cbn [bind] in Hrun.
    destruct (gen_path_sp hypot sp fuel r ((c, d) :: rest)) as [[[x' y'] z']|e] eqn:Hp;
      [|discriminate]. cbn [bind] in Hrun. simpl in Hrun. injection Hrun as <- <- <-.
    destruct (gen_segment_length hypot sp fuel r a b c d x y z Hsp Hseg) as [H1 [H2 H3]].
    destruct (IH _ _ _ eq_refl) as [H4 [H5 H6]].
    rewrite seg_counts_cons, !length_app. lia.
Qed.

Lemma gen_path_last (hypot : Q -> Q -> Q) (sp : Q) (fuel : nat) (r : raster)
    (rest : list (Q * Q)) :
  forall w0 w1 xs ys zs,
  gen_path_sp hypot sp fuel r (w0 :: w1 :: rest) = Ok (xs, ys, zs) ->
  xs <> [] /\ ys <> [] /\ last xs 0 = fst (last (w1 :: rest) (0, 0)) /\
  last ys 0 = snd (last (w1 :: rest) (0, 0)).
Proof.
  induction rest as [|w2 rest IH]; intros [a b] [c d] xs ys zs Hrun;
    rewrite gen_path_cons in Hrun;
    destruct (gen_segment_sp hypot sp fuel r (a, b) (c, d)) as [[[x y] z]|e] eqn:Hseg;
    try discriminate; cbn [bind] in Hrun;
    destruct (gen_segment_shape hypot sp fuel r a b c d x y z Hseg)
      as [Hnx [Hny [Hlx [Hly _]]]].
  - simpl in Hrun. injection Hrun as <- <- <-. rewrite !app_nil_r.
    repeat split; assumption.
  - destruct (gen_path_sp hypot sp fuel r ((c, d) :: w2 :: rest)) as [[[x' y'] z']|e]
      eqn:Hp; [|discriminate]. cbn [bind] in Hrun. simpl in Hrun.
    injection Hrun as <- <- <-.
    destruct (IH _ _ _ _ _ Hp) as [Hnx' [Hny' [Hx' Hy']]].
    split; [intro E; apply app_eq_nil in E; destruct E as [_ E]; contradiction|].
    split; [intro E; apply app_eq_nil in E; destruct E as [_ E]; contradiction|].
    rewrite !last_app_ne by assumption. split; assumption.
Qed.

(** A successful [gen_path] over at least two waypoints ends exactly at the
    last waypoint, and starts exactly at the first one when the first
    segment has positive length (otherwise the loop of the first segment is
    skipped and the path starts at the second waypoint). *)
Theorem gen_path_endpoints (hypot : Q -> Q -> Q) (sp : Q) (fuel : nat) (r : raster)
    (src_x src_y dest_x dest_y : Q) (rest : list (Q * Q)) (xs ys zs : list Q) :
  gen_path_sp hypot sp fuel r ((src_x, src_y) :: (dest_x, dest_y) :: rest) =
    Ok (xs, ys, zs) ->
  (0 < hypot (dest_x - src_x) (dest_y - src_y) -> hd 0 xs = src_x /\ hd 0 ys = src_y) /\
  last xs 0 = fst (last ((dest_x, dest_y) :: rest) (0, 0)) /\
  last ys 0 = snd (last ((dest_x, dest_y) :: rest) (0, 0)).
Proof.
  intro Hrun.
  destruct (gen_path_last hypot sp fuel r rest _ _ xs ys zs Hrun) as [_ [_ Hlast]].
  split; [|exact Hlast]. intro HL.
  rewrite gen_path_cons in Hrun.
  destruct (gen_segment_sp hypot sp fuel r (src_x, src_y) (dest_x, dest_y))
    as [[[x y] z]|e] eqn:Hseg; [|discriminate]. cbn [bind] in Hrun.
  destruct (gen_segment_shape hypot sp fuel r _ _ _ _ x y z Hseg)
    as [Hnx [Hny [_ [_ Hhd]]]].
  destruct (Hhd HL) as [Hx Hy].
  destruct (gen_path_sp hypot sp fuel r ((dest_x, dest_y) :: rest)) as [[[x' y'] z']|e];
    [|discriminate]. cbn [bind] in Hrun. simpl in Hrun. injection Hrun as <- <- <-.
  destruct x as [|x0 x]; [contradiction|]. destruct y as [|y0 y]; [contradiction|].
  simpl in Hx, Hy |- *. split; assumption.
Qed.

(** Every point of a successful [gen_path] lies exactly [HEIGHT_TOL] above
    the raster cell [surface_raster[int(y)][int(x)]] it was sampled from,
    and the three lists have the same length. *)
Theorem gen_path_above_surface (hypot : Q -> Q -> Q) (sp : Q) (fuel : nat) (r : raster)
    (wps : list (Q * Q)) (res : points3) :
  gen_path_sp hypot sp fuel r wps = Ok res -> above_surface r res.
Proof.
  revert res. induction wps as [|w0 wps IH]; intros res Hrun.
  - simpl in Hrun. injection Hrun as <-. simpl. split; [reflexivity|].
    split; [reflexivity|]. intros k Hk. simpl in Hk. lia.
  - destruct wps as [|w1 rest].
    + destruct w0. simpl in Hrun. injection Hrun as <-. simpl. split; [reflexivity|].
      split; [reflexivity|]. intros k Hk. simpl in Hk. lia.
    + rewrite gen_path_cons in Hrun.
      destruct (gen_segment_sp hypot sp fuel r w0 w1) as [seg|e] eqn:Hseg;
        [|discriminate]. cbn [bind] in Hrun.
      destruct (gen_path_sp hypot sp fuel r (w1 :: rest)) as [p|e] eqn:Hp;
        [|discriminate]. cbn [bind] in Hrun. injection Hrun as <-.
      apply above_surface_app; [exact (gen_segment_above _ _ _ _ _ _ _ Hseg)|].
      apply IH. reflexivity.
Qed.

(** The [k]-th point produced by the sampling loop of [gen_segment] (every
    point but the final destination) is
    [src + k * (delta * spacing / seg_dist)] on both axes, and was taken
    while [k * spacing < seg_dist]: the samples are evenly spaced on the line
    from the source toward the destination. *)
Theorem gen_segment_samples (hypot : Q -> Q -> Q) (sp : Q) (fuel : nat) (r : raster)
    (src_x src_y dest_x dest_y : Q) (xs ys zs : list Q) :
  gen_segment_sp hypot sp fuel r (src_x, src_y) (dest_x, dest_y) = Ok (xs, ys, zs) ->
  forall k, (S k < length xs)%nat ->
    nth k xs 0 == src_x + inject_Z (Z.of_nat k) *
                   ((dest_x - src_x) * sp / hypot (dest_x - src_x) (dest_y - src_y)) /\
    nth k ys 0 == src_y + inject_Z (Z.of_nat k) *
                   ((dest_y - src_y) * sp / hypot (dest_x - src_x) (dest_y - src_y)) /\
    inject_Z (Z.of_nat k) * sp < hypot (dest_x - src_x) (dest_y - src_y).
Proof.
  unfold gen_segment_sp. cbv beta iota zeta. intros Hrun k Hk.
  destruct (seg_loop sp fuel r _ _ _ 0 src_x src_y ([], [], [])) as [[[xs0 ys0] zs0]|e]
    eqn:Hloop; [|discriminate]. cbn [bind] in Hrun.
  destruct (raster_at r dest_x dest_y) as [h|e]; [|discriminate].
  cbn [bind] in Hrun. injection Hrun as <- <- <-.
  assert (Hon : on_segment sp (dest_x - src_x) (dest_y - src_y)
                  (hypot (dest_x - src_x) (dest_y - src_y)) src_x src_y xs0 ys0).
  { eapply seg_loop_on_segment; [| | | | exact Hloop]; simpl.
    - ring.
    - ring.
    - ring.
    - split; [reflexivity|]. intros j Hj. simpl in Hj. lia. }
  destruct Hon as [Hl Hon]. rewrite length_app in Hk. simpl in Hk.
  rewrite !app_nth1 by lia. apply Hon. lia.
Qed.

Lemma gen_path_length_witness :
  exists xs ys zs,
    gen_path_sp hypot_q PATH_SPACING 20 (flat_raster 6 6 0) [(0, 0); (3, 4); (3, 0)] =
      Ok (xs, ys, zs) /\
    length xs = seg_counts hypot_q PATH_SPACING [(0, 0); (3, 4); (3, 0)] /\
    length xs = 20%nat.
Proof.
  destruct (gen_path_sp hypot_q PATH_SPACING 20 (flat_raster 6 6 0) [(0, 0); (3, 4); (3, 0)])
    as [[[xs ys] zs]|e] eqn:Hg; [|vm_compute in Hg; discriminate].
  exists xs, ys, zs. split; [reflexivity|].
  destruct (gen_path_length hypot_q PATH_SPACING 20 (flat_raster 6 6 0) _ xs ys zs
              ltac:(reflexivity) Hg) as [H1 _].
  split; [exact H1 | rewrite H1; vm_compute; reflexivity].
Defined.

Lemma gen_path_endpoints_witness :
  exists xs ys zs,
    gen_path_sp hypot_q PATH_SPACING 20 (flat_raster 6 6 0) [(0, 0); (3, 4); (3, 0)] =
      Ok (xs, ys, zs) /\
    hd 0 xs = 0 /\ hd 0 ys = 0 /\ last xs 0 = 3 /\ last ys 0 = 0.
Proof.
  destruct (gen_path_sp hypot_q PATH_SPACING 20 (flat_raster 6 6 0) [(0, 0); (3, 4); (3, 0)])
    as [[[xs ys] zs]|e] eqn:Hg; [|vm_compute in Hg; discriminate].
  exists xs, ys, zs. split; [reflexivity|].
  destruct (gen_path_endpoints hypot_q PATH_SPACING 20 (flat_raster 6 6 0) 0 0 3 4
              [(3, 0)] xs ys zs Hg) as [Hhd [Hx Hy]].
  destruct (Hhd ltac:(vm_compute; reflexivity)) as [H1 H2].
  split; [exact H1|]. split; [exact H2|]. split; [exact Hx | exact Hy].
Defined.

(** A raster whose cell [(x, y)] has height [x + 10 * y]. *)
Definition ramp_raster : raster :=
  map (fun y => map (fun x => inject_Z (Z.of_nat x + 10 * Z.of_nat y)) (seq 0 6)) (seq 0 6).

Lemma gen_path_above_surface_witness :
  exists res,
    gen_path_sp hypot_q PATH_SPACING 20 ramp_raster [(0, 0); (3, 4); (3, 0)] = Ok res /\
    above_surface ramp_raster res.
Proof.
  destruct (gen_path_sp hypot_q PATH_SPACING 20 ramp_raster [(0, 0); (3, 4); (3, 0)])
    as [res|e] eqn:Hg; [|vm_compute in Hg; discriminate].
  exists res. split; [reflexivity|].
  exact (gen_path_above_surface hypot_q PATH_SPACING 20 ramp_raster _ res Hg).
Defined.

Lemma gen_segment_samples_witness :
  exists xs ys zs,
    gen_segment_sp hypot_q PATH_SPACING 20 (flat_raster 6 6 0) (0, 0) (3, 4) =
      Ok (xs, ys, zs) /\
    nth 4 xs 0 == 0 + inject_Z 4 * ((3 - 0) * PATH_SPACING / hypot_q (3 - 0) (4 - 0)) /\
    nth 4 xs 0 == 6 # 5.
Proof.
  destruct (gen_segment_sp hypot_q PATH_SPACING 20 (flat_raster 6 6 0) (0, 0) (3, 4))
    as [[[xs ys] zs]|e] eqn:Hg; [|vm_compute in Hg; discriminate].
  exists xs, ys, zs. split; [reflexivity|].
  assert (Hl : (5 < length xs)%nat)
    by (vm_compute in Hg; injection Hg as <- _ _; vm_compute; lia).
  destruct (gen_segment_samples hypot_q PATH_SPACING 20 (flat_raster 6 6 0) 0 0 3 4
              xs ys zs Hg 4 Hl) as [Hx _].
  split; [exact Hx|]. rewrite Hx. vm_compute. reflexivity.
Defined.

End PathShape.

(** ** [pathtools.py] *)
Module ToolsFacts.
Import Tools.

Definition dot (u v : vec3) : Q :=
  let '(a, b, c) := u in let '(d, e, f) := v in a * d + b * e + c * f.

(** Coordinate-wise equality of two vectors. *)
Definition veq (u v : vec3) : Prop :=
  fst (fst u) == fst (fst v) /\ snd (fst u) == snd (fst v) /\ snd u == snd v.

Definition v0 : vec3 := (0, 0, 0).

Definition nonneg3 (v : vec3) : Prop := 0 <= fst (fst v) /\ 0 <= snd (fst v) /\ 0 <= snd v.

Definition equal3 (v : vec3) : Prop := fst (fst v) == snd (fst v) /\ snd (fst v) == snd v.

Lemma Forall2_nth_Q3 (R : vec3 -> vec3 -> Prop) (l1 l2 : list vec3) :
  Forall2 R l1 l2 -> forall k, (k < length l2)%nat -> R (nth k l1 v0) (nth k l2 v0).
Proof.
  induction 1 as [|a b l1 l2 Hab H IH]; intros k Hk; simpl in Hk; [lia|].
  destruct k; simpl; [exact Hab | apply IH; lia].
Qed.

Lemma noise_loop_length draw i p rest :
  length (noise_loop draw i p rest) = S (length rest).
Proof.
  revert i p. induction rest as [|pt rest IH]; intros i p; simpl; [reflexivity|].
  rewrite IH. reflexivity.
Qed.

Lemma noise_loop_last draw i p rest :
  last (noise_loop draw i p rest) v0 = last (p :: rest) v0.
Proof.
  revert i p. induction rest as [|pt rest IH]; intros i p; [reflexivity|].
  change (noise_loop draw i p (pt :: rest)) with
    (vadd (vscale (cross (vsub pt p) UP) (draw i)) p :: noise_loop draw (S i) pt rest).
  change (last (p :: pt :: rest) v0) with (last (pt :: rest) v0).
  rewrite <- (IH (S i) pt).
  destruct (noise_loop draw (S i) pt rest) eqn:E.
  - pose proof (noise_loop_length draw (S i) pt rest) as HL. rewrite E in HL. discriminate.
  - reflexivity.
Qed.

Lemma noise_loop_altitude draw i p rest :
  Forall2 (fun u v => snd u == snd v) (noise_loop draw i p rest) (p :: rest).
Proof.
  revert i p. induction rest as [|pt rest IH]; intros i p.
  - constructor; [reflexivity | constructor].
  - cbn [noise_loop]. constructor; [|apply IH].
    destruct pt as [[a b] c], p as [[d e] f]. simpl. ring.
Qed.

Lemma noise_loop_perp draw i p rest :
  forall k, (S k < S (length rest))%nat ->
  dot (vsub (nth k (noise_loop draw i p rest) v0) (nth k (p :: rest) v0))
      (vsub (nth (S k) (p :: rest) v0) (nth k (p :: rest) v0)) == 0.
Proof.
  revert i p. induction rest as [|pt rest IH]; intros i p k Hk; simpl in Hk; [lia|].
  destruct k as [|k].
  - cbn [noise_loop nth]. destruct pt as [[a b] c], p as [[d e] f]. simpl. ring.
  - cbn [noise_loop]. change (nth (S k) (p :: pt :: rest) v0) with (nth k (pt :: rest) v0).
    change (nth (S (S k)) (p :: pt :: rest) v0) with (nth (S k) (pt :: rest) v0).
    apply IH. lia.
Qed.

Lemma fold_vadd_z (l : list vec3) (acc : vec3) :
  Forall (fun v => snd v == 0) l -> snd (fold_left vadd l acc) == snd acc.
Proof.
  revert acc. induction l as [|v l IH]; intros acc H; [reflexivity|].
  inversion H as [|? ? Hv H']; subst. simpl. rewrite IH by exact H'.
  destruct acc as [[a b] c], v as [[d e] f]. cbn [fst snd vadd vsub vsq v0] in Hv |- *. rewrite Hv. ring.
Qed.

Lemma zip_sub_z (us vs : list vec3) :
  Forall2 (fun u v => snd u == snd v) vs us ->
  Forall (fun v => snd v == 0) (map vsq (zip_sub us vs)).
Proof.
  intro H. revert us H. induction vs as [|v vs IH]; intros us H;
    inversion H as [|? u ? us' Hvu H']; subst; [constructor|].
  simpl. constructor; [|apply IH; exact H'].
  destruct u as [[a b] c], v as [[d e] f]. cbn [fst snd vadd vsub vsq v0] in Hvu |- *. rewrite Hvu. ring.
Qed.

(** [col_mean] respects coordinate-wise equality of the rows. *)
Lemma fold_vadd_veq (l1 l2 : list vec3) (a1 a2 : vec3) :
  Forall2 veq l1 l2 -> veq a1 a2 -> veq (fold_left vadd l1 a1) (fold_left vadd l2 a2).
Proof.
  intro H. revert a1 a2. induction H as [|u v l1 l2 Huv H IH]; intros a1 a2 Ha;
    [exact Ha|].
  simpl. apply IH.
  destruct a1 as [[p q] s], a2 as [[p' q'] s'], u as [[a b] c], v as [[d e] f].
  destruct Ha as [H1 [H2 H3]], Huv as [H4 [H5 H6]]. unfold veq, nonneg3, equal3 in *; cbn [fst snd vadd vsub vsq v0] in *.
  split; [rewrite H1, H4; reflexivity|]. split; [rewrite H2, H5; reflexivity|].
  rewrite H3, H6. reflexivity.
Qed.

Lemma col_mean_veq (l1 l2 : list vec3) :
  Forall2 veq l1 l2 -> veq (col_mean l1) (col_mean l2).
Proof.
  intro H. unfold col_mean. rewrite (Forall2_length H).
  pose proof (fold_vadd_veq l1 l2 (0, 0, 0) (0, 0, 0) H
                ltac:(split; [reflexivity | split; reflexivity])) as E.
  destruct (fold_left vadd l1 (0, 0, 0)) as [[a b] c],
           (fold_left vadd l2 (0, 0, 0)) as [[d e] f].
  destruct E as [E1 [E2 E3]]. unfold veq, nonneg3, equal3 in *; cbn [fst snd vadd vsub vsq v0] in *.
  split; [rewrite E1; reflexivity|]. split; [rewrite E2; reflexivity|].
  rewrite E3. reflexivity.
Qed.

Lemma vsq_vsub_comm (u v : vec3) : veq (vsq (vsub u v)) (vsq (vsub v u)).
Proof.
  destruct u as [[a b] c], v as [[d e] f]. unfold veq. simpl. repeat split; ring.
Qed.

Lemma zip_sub_comm (us vs : list vec3) :
  Forall2 veq (map vsq (zip_sub us vs)) (map vsq (zip_sub vs us)).
Proof.
  revert vs. induction us as [|u us IH]; intros [|v vs]; simpl; try constructor.
  - apply vsq_vsub_comm.
  - apply IH.
Qed.

Lemma Forall2_map_veq {A} (f g : A -> vec3) (l : list A) :
  (forall x, veq (f x) (g x)) -> Forall2 veq (map f l) (map g l).
Proof.
  intro H. induction l as [|x l IH]; simpl; constructor; [apply H | exact IH].
Qed.

Lemma vsq_nonneg (u : vec3) : nonneg3 (vsq u).
Proof.
  destruct u as [[a b] c]. unfold nonneg3. simpl.
  split; [|split]; nra.
Qed.

Lemma fold_vadd_nonneg (l : list vec3) (acc : vec3) :
  Forall nonneg3 l -> nonneg3 acc -> nonneg3 (fold_left vadd l acc).
Proof.
  revert acc. induction l as [|v l IH]; intros acc H Ha; [exact Ha|].
  inversion H as [|? ? Hv H']; subst. simpl. apply IH; [exact H'|].
  destruct acc as [[a b] c], v as [[d e] f].
  destruct Ha as [H1 [H2 H3]], Hv as [H4 [H5 H6]]. unfold nonneg3 in *. unfold veq, nonneg3, equal3 in *; cbn [fst snd vadd vsub vsq v0] in *.
  split; [lra|]. split; lra.
Qed.

Lemma div_nonneg (a n : Q) : 0 <= a -> 0 <= n -> 0 <= a / n.
Proof.
  intros Ha Hn. unfold Qdiv. apply Qmult_le_0_compat; [exact Ha|].
  apply Qinv_le_0_compat. exact Hn.
Qed.

Lemma col_mean_nonneg (l : list vec3) : Forall nonneg3 l -> nonneg3 (col_mean l).
Proof.
  intro H. unfold col_mean.
  pose proof (fold_vadd_nonneg l (0, 0, 0) H
                ltac:(unfold nonneg3; simpl; split; [lra | split; lra])) as E.
  assert (Hn : 0 <= inject_Z (Z.of_nat (length l))).
  { change 0 with (inject_Z 0). rewrite <- Zle_Qle. lia. }
  destruct (fold_left vadd l (0, 0, 0)) as [[a b] c].
  destruct E as [E1 [E2 E3]]. unfold veq, nonneg3, equal3 in *; cbn [fst snd vadd vsub vsq v0] in *.
  split; [apply div_nonneg; assumption|]. split; apply div_nonneg; assumption.
Qed.

Lemma Forall_map_vsq {A} (f : A -> vec3) (l : list A) : Forall nonneg3 (map (fun x => vsq (f x)) l).
Proof. induction l as [|x l IH]; simpl; constructor; [apply vsq_nonneg | exact IH]. Qed.

Lemma Forall_vsq (l : list vec3) : Forall nonneg3 (map vsq l).
Proof. induction l as [|x l IH]; simpl; constructor; [apply vsq_nonneg | exact IH]. Qed.

Lemma zip_sub_self_zero (us : list vec3) :
  Forall (fun v => veq v v0) (map vsq (zip_sub us us)).
Proof.
  induction us as [|[[a b] c] us IH]; simpl; constructor; [|exact IH].
  unfold veq. simpl. repeat split; ring.
Qed.

Lemma Forall2_veq_v0 (l : list vec3) :
  Forall (fun v => veq v v0) l -> Forall2 veq l (repeat v0 (length l)).
Proof. induction 1; simpl; constructor; assumption. Qed.

Lemma fold_vadd_zeros (n : nat) (acc : vec3) :
  veq (fold_left vadd (repeat v0 n) acc) acc.
Proof.
  revert acc. induction n as [|n IH]; intro acc; simpl.
  - unfold veq. repeat split; reflexivity.
  - destruct (IH (vadd acc v0)) as [H1 [H2 H3]].
    destruct acc as [[a b] c]. unfold veq in *. unfold veq, nonneg3, equal3 in *; cbn [fst snd vadd vsub vsq v0] in *.
    rewrite H1, H2, H3. repeat split; ring.
Qed.

Lemma col_mean_zeros (l : list vec3) :
  Forall (fun v => veq v v0) l -> veq (col_mean l) v0.
Proof.
  intro H. pose proof (col_mean_veq _ _ (Forall2_veq_v0 l H)) as E.
  assert (Z0 : veq (col_mean (repeat v0 (length l))) v0).
  { unfold col_mean. pose proof (fold_vadd_zeros (length l) (0, 0, 0)) as F.
    destruct (fold_left vadd (repeat v0 (length l)) (0, 0, 0)) as [[a b] c].
    destruct F as [F1 [F2 F3]]. unfold veq, nonneg3, equal3 in *; cbn [fst snd vadd vsub vsq v0] in *. unfold veq. simpl.
    rewrite F1, F2, F3. repeat split; unfold Qdiv; ring. }
  destruct E as [E1 [E2 E3]], Z0 as [Z1 [Z2 Z3]].
  split; [rewrite E1; exact Z1|]. split; [rewrite E2; exact Z2|]. rewrite E3; exact Z3.
Qed.

Lemma static_loop_length draw i pts : length (static_loop draw i pts) = length pts.
Proof.
  revert i. induction pts as [|p pts IH]; intro i; simpl; [reflexivity|]. rewrite IH. reflexivity.
Qed.

Lemma static_rows_equal3 draw i pts :
  Forall equal3 (map vsq (zip_sub pts (static_loop draw i pts))).
Proof.
  revert i. induction pts as [|[[a b] c] pts IH]; intro i; simpl; constructor; [|apply IH].
  unfold equal3. simpl. split; ring.
Qed.

Lemma fold_vadd_equal3 (l : list vec3) (acc : vec3) :
  Forall equal3 l -> equal3 acc -> equal3 (fold_left vadd l acc).
Proof.
  revert acc. induction l as [|v l IH]; intros acc H Ha; [exact Ha|].
  inversion H as [|? ? Hv H']; subst. simpl. apply IH; [exact H'|].
  destruct acc as [[a b] c], v as [[d e] f].
  destruct Ha as [H1 H2], Hv as [H3 H4]. unfold equal3 in *. unfold veq, nonneg3, equal3 in *; cbn [fst snd vadd vsub vsq v0] in *.
  rewrite H1, H2, H3, H4. split; reflexivity.
Qed.

Lemma col_mean_equal3 (l : list vec3) : Forall equal3 l -> equal3 (col_mean l).
Proof.
  intro H. unfold col_mean.
  pose proof (fold_vadd_equal3 l (0, 0, 0) H ltac:(split; reflexivity)) as E.
  destruct (fold_left vadd l (0, 0, 0)) as [[a b] c].
  destruct E as [E1 E2]. unfold equal3 in *. unfold veq, nonneg3, equal3 in *; cbn [fst snd vadd vsub vsq v0] in *.
  rewrite E1, E2. split; reflexivity.
Qed.

Section Dist.
Variable norm : vec3 -> Q.

Lemma dist_loop_length (scale : Q) (p : vec3) (pts : list vec3) :
  length (dist_loop norm scale (Some p) pts) = length pts.
Proof.
  revert p. induction pts as [|q pts IH]; intro p; simpl; [reflexivity|].
  rewrite IH. reflexivity.
Qed.

Lemma dist_loop_app (scale : Q) (prev : option vec3) (l1 l2 : list vec3) (a : vec3) :
  dist_loop norm scale prev (l1 ++ a :: l2) =
  dist_loop norm scale prev (l1 ++ [a]) ++ dist_loop norm scale (Some a) l2.
Proof.
  revert prev. induction l1 as [|b l1 IH]; intro prev.
  - simpl. destruct prev; reflexivity.
  - simpl. destruct prev; rewrite IH; reflexivity.
Qed.

Lemma fold_Qplus_acc (l : list Q) (acc : Q) :
  fold_left Qplus l acc == acc + fold_left Qplus l 0.
Proof.
  revert acc. induction l as [|x l IH]; intro acc; simpl; [ring|].
  rewrite IH, (IH (0 + x)). ring.
Qed.

Lemma fold_Qplus_app (l1 l2 : list Q) :
  fold_left Qplus (l1 ++ l2) 0 == fold_left Qplus l1 0 + fold_left Qplus l2 0.
Proof. rewrite fold_left_app. apply fold_Qplus_acc. Qed.

Lemma total_dist_cons2 (p q : vec3) (l : list vec3) :
  total_dist norm (p :: q :: l) == norm (vsub q p) + total_dist norm (q :: l).
Proof.
  unfold total_dist, get_dist_between_points. cbn [dist_loop].
  change (norm (vsub q p) * 1 :: dist_loop norm 1 (Some q) l) with
    ([norm (vsub q p) * 1] ++ dist_loop norm 1 (Some q) l).
  rewrite fold_Qplus_app. simpl. ring.
Qed.

Lemma total_dist_snoc2 (l : list vec3) (p q : vec3) :
  total_dist norm (p :: l ++ [q]) == total_dist norm (p :: l) + norm (vsub q (last (p :: l) v0)).
Proof.
  revert p. induction l as [|b l IH]; intro p.
  - simpl app. rewrite total_dist_cons2. unfold total_dist, get_dist_between_points.
    simpl. ring.
  - rewrite <- app_comm_cons. rewrite !total_dist_cons2, IH.
    change (last (p :: b :: l) v0) with (last (b :: l) v0). ring.
Qed.

End Dist.

(** A noise source and a three-point path for the witnesses below. *)
Definition demo_draw (i : nat) : Q := inject_Z (Z.of_nat i) + 1.
Definition demo_wps : list vec3 := [(0, 0, 0); (3, 4, 1); (5, 0, 2)].

(** Taxicab length, a norm for the witnesses below. *)
Definition norm1 (v : vec3) : Q := let '(a, b, c) := v in Qabs a + Qabs b + Qabs c.

Lemma norm1_sym (u v : vec3) : norm1 (vsub u v) == norm1 (vsub v u).
Proof.
  destruct u as [[a b] c], v as [[d e] f]. unfold norm1, vsub.
  rewrite (Qabs_wd (a - d) (- (d - a))) by ring.
  rewrite (Qabs_wd (b - e) (- (e - b))) by ring.
  rewrite (Qabs_wd (c - f) (- (f - c))) by ring.
  rewrite !Qabs_opp. reflexivity.
Qed.

(** [gen_noise_points] fails on an empty path (the [next(waypoints)]
    before the loop); on a non-empty path it yields exactly one point per
    waypoint, yields the last waypoint unchanged, and every yielded point
    has the altitude of its waypoint. *)
Theorem gen_noise_points_altitude (draw : nat -> Q) :
  gen_noise_points draw [] = None /\
  forall (p : vec3) (rest : list vec3), exists out,
    gen_noise_points draw (p :: rest) = Some out /\
    length out = length (p :: rest) /\ last out v0 = last (p :: rest) v0 /\
    forall k, (k < length (p :: rest))%nat ->
      snd (nth k out v0) == snd (nth k (p :: rest) v0).
Proof.
  split; [reflexivity|]. intros p rest.
  exists (noise_loop draw 0 p rest). split; [reflexivity|].
  split; [apply noise_loop_length|]. split; [apply noise_loop_last|].
  apply (Forall2_nth_Q3 (fun u v => snd u == snd v)). apply noise_loop_altitude.
Qed.

(** The displacement that [gen_noise_points] gives to a waypoint that has a
    successor is perpendicular to the segment from that waypoint to the next
    one. *)
Theorem gen_noise_points_perpendicular (draw : nat -> Q) (wps out : list vec3) (k : nat) :
  gen_noise_points draw wps = Some out -> (S k < length wps)%nat ->
  dot (vsub (nth k out v0) (nth k wps v0)) (vsub (nth (S k) wps v0) (nth k wps v0)) == 0.
Proof.
  intros Hg Hk. destruct wps as [|p rest]; [discriminate|].
  injection Hg as <-. apply noise_loop_perp. exact Hk.
Qed.

Lemma gen_noise_points_perpendicular_witness :
  gen_noise_points demo_draw demo_wps = Some (noise_loop demo_draw 0 (0, 0, 0) (tl demo_wps)) /\
  (2 < length demo_wps)%nat /\
  dot (vsub (nth 1 (noise_loop demo_draw 0 (0, 0, 0) (tl demo_wps)) v0) (nth 1 demo_wps v0))
      (vsub (nth 2 demo_wps v0) (nth 1 demo_wps v0)) == 0.
Proof.
  split; [reflexivity|]. split; [vm_compute; lia|].
  apply (gen_noise_points_perpendicular demo_draw demo_wps _ 1); [reflexivity | vm_compute; lia].
Defined.

(** On a non-empty path, [calc_errors_with_gen_noise] returns a mean error
    per coordinate, and the altitude error is always [0]: the noise is
    horizontal. *)
Theorem calc_errors_altitude_zero (draw : nat -> Q) (wps : list vec3) :
  wps <> [] ->
  exists ex ey ez, calc_errors_with_gen_noise draw wps = Some (MseMean (ex, ey, ez)) /\ ez == 0.
Proof.
  intro Hne. destruct wps as [|p rest]; [contradiction|].
  unfold calc_errors_with_gen_noise. cbn [gen_noise_points].
  pose proof (noise_loop_length draw 0 p rest) as HL.
  pose proof (noise_loop_altitude draw 0 p rest) as HZ.
  destruct (noise_loop draw 0 p rest) as [|q out] eqn:E; [discriminate|].
  assert (Hm : mse (p :: rest) (q :: out) = MseMean (col_mean (map vsq (zip_sub (p :: rest) (q :: out))))).
  { unfold mse. rewrite HL, Nat.eqb_refl. reflexivity. }
  rewrite Hm. clear Hm.
  pose proof (fold_vadd_z _ (0, 0, 0) (zip_sub_z (p :: rest) (q :: out) HZ)) as Hs.
  unfold col_mean.
  destruct (fold_left vadd (map vsq (zip_sub (p :: rest) (q :: out))) (0, 0, 0)) as [[a b] c].
  exists (a / inject_Z (Z.of_nat (length (map vsq (zip_sub (p :: rest) (q :: out)))))),
         (b / inject_Z (Z.of_nat (length (map vsq (zip_sub (p :: rest) (q :: out)))))),
         (c / inject_Z (Z.of_nat (length (map vsq (zip_sub (p :: rest) (q :: out)))))).
  split; [reflexivity|]. cbn [snd] in Hs. rewrite Hs. unfold Qdiv. ring.
Qed.

Lemma calc_errors_altitude_zero_witness :
  demo_wps <> [] /\
  exists ex ey ez, calc_errors_with_gen_noise demo_draw demo_wps = Some (MseMean (ex, ey, ez)) /\ ez == 0.
Proof.
  split; [discriminate|]. apply calc_errors_altitude_zero. discriminate.
Defined.

(** [mse] is symmetric: swapping the expected and the actual points gives
    the same outcome (the same means, [nan], or the broadcast error). *)
Theorem mse_symmetric (e a : list vec3) :
  match mse e a, mse a e with
  | MseMean u, MseMean v => veq u v
  | MseNaN, MseNaN | MseValueError, MseValueError => True
  | _, _ => False
  end.
Proof.
  destruct e as [|x [|x2 e]], a as [|y [|y2 a]]; unfold mse; cbn [length Nat.eqb]; try exact I.
  - apply col_mean_veq. apply zip_sub_comm.
  - apply col_mean_veq. apply Forall2_map_veq. intro z. apply vsq_vsub_comm.
  - apply col_mean_veq. apply Forall2_map_veq. intro z. apply vsq_vsub_comm.
  - rewrite Nat.eqb_sym. destruct (Nat.eqb (length a) (length e)); [|exact I].
    apply col_mean_veq. apply zip_sub_comm.
Qed.

(** Every mean that [mse] returns is non-negative in each coordinate. *)
Theorem mse_nonneg (e a : list vec3) (v : vec3) :
  mse e a = MseMean v -> nonneg3 v.
Proof.
  destruct e as [|x [|x2 e]], a as [|y [|y2 a]]; unfold mse; cbn [length Nat.eqb];
    try discriminate; intro H.
  - injection H as <-. apply col_mean_nonneg; exact (Forall_vsq (zip_sub [x] [y])).
  - injection H as <-. apply col_mean_nonneg; exact (Forall_map_vsq (fun z => vsub x z) (y :: y2 :: a)).
  - injection H as <-. apply col_mean_nonneg; exact (Forall_map_vsq (fun z => vsub z y) (x :: x2 :: e)).
  - destruct (Nat.eqb (length e) (length a)); [|discriminate].
    injection H as <-. apply col_mean_nonneg; exact (Forall_vsq (zip_sub (x :: x2 :: e) (y :: y2 :: a))).
Qed.

Lemma mse_nonneg_witness :
  mse demo_wps (noise_loop demo_draw 0 (0, 0, 0) (tl demo_wps)) =
    MseMean (col_mean (map vsq (zip_sub demo_wps (noise_loop demo_draw 0 (0, 0, 0) (tl demo_wps))))) /\
  nonneg3 (col_mean (map vsq (zip_sub demo_wps (noise_loop demo_draw 0 (0, 0, 0) (tl demo_wps))))).
Proof.
  split; [reflexivity|]. apply (mse_nonneg demo_wps (noise_loop demo_draw 0 (0, 0, 0) (tl demo_wps))).
  reflexivity.
Defined.

(** Comparing a non-empty path with itself, [mse] returns the mean [0] in
    every coordinate. *)
Theorem mse_self_zero (e : list vec3) :
  e <> [] -> exists v, mse e e = MseMean v /\ veq v v0.
Proof.
  intro Hne. destruct e as [|x e]; [contradiction|].
  exists (col_mean (map vsq (zip_sub (x :: e) (x :: e)))). split.
  - unfold mse. rewrite Nat.eqb_refl. reflexivity.
  - apply col_mean_zeros, zip_sub_self_zero.
Qed.

Lemma mse_self_zero_witness :
  demo_wps <> [] /\ exists v, mse demo_wps demo_wps = MseMean v /\ veq v v0.
Proof. split; [discriminate|]. apply mse_self_zero. discriminate. Defined.

(** With the static noise of [gen_noise_points_static] (one scalar added to
    all three coordinates of a point), the [mse] of a non-empty path against
    its noisy version is the same in the three coordinates. *)
Theorem mse_static_noise_equal (draw : nat -> Q) (wps : list vec3) :
  wps <> [] ->
  exists v, mse wps (gen_noise_points_static draw wps) = MseMean v /\ equal3 v.
Proof.
  intro Hne. unfold gen_noise_points_static.
  destruct wps as [|p rest]; [contradiction|].
  pose proof (static_loop_length draw 0 (p :: rest)) as HL.
  pose proof (static_rows_equal3 draw 0 (p :: rest)) as HR.
  destruct (static_loop draw 0 (p :: rest)) as [|q out] eqn:E; [discriminate|].
  exists (col_mean (map vsq (zip_sub (p :: rest) (q :: out)))). split.
  - unfold mse. rewrite HL, Nat.eqb_refl. reflexivity.
  - apply col_mean_equal3. exact HR.
Qed.

Lemma mse_static_noise_equal_witness :
  demo_wps <> [] /\
  exists v, mse demo_wps (gen_noise_points_static demo_draw demo_wps) = MseMean v /\ equal3 v.
Proof. split; [discriminate|]. apply mse_static_noise_equal. discriminate. Defined.

(** [get_dist_between_points] yields one distance per pair of consecutive
    points: one fewer than there are points, and none for an empty path. *)
Theorem get_dist_between_points_length (norm : vec3 -> Q) (pts : list vec3) (scale : Q) :
  length (get_dist_between_points norm pts scale) = (length pts - 1)%nat.
Proof.
  destruct pts as [|p pts]; [reflexivity|].
  unfold get_dist_between_points. cbn [dist_loop].
  rewrite dist_loop_length. simpl. lia.
Qed.

(** [total_dist] of two paths joined end to end is the sum of their total
    distances plus the length of the joining step. *)
Theorem total_dist_app (norm : vec3 -> Q) (q p : vec3) (l1 l2 : list vec3) :
  total_dist norm (q :: l1 ++ p :: l2) ==
  total_dist norm (q :: l1) + norm (vsub p (last (q :: l1) v0)) + total_dist norm (p :: l2).
Proof.
  revert q. induction l1 as [|b l1 IH]; intro q.
  - simpl app. rewrite total_dist_cons2.
    unfold total_dist at 2, get_dist_between_points. simpl. ring.
  - rewrite <- app_comm_cons. rewrite !(total_dist_cons2 norm q b), IH.
    change (last (q :: b :: l1) v0) with (last (b :: l1) v0). ring.
Qed.

(** For a symmetric norm, [total_dist] does not depend on the direction in
    which the path is flown: the reversed path has the same total
    distance. *)
Theorem total_dist_rev (norm : vec3 -> Q) (path : list vec3) :
  (forall u v, norm (vsub u v) == norm (vsub v u)) ->
  total_dist norm (rev path) == total_dist norm path.
Proof.
  intro Hsym. induction path as [|a l IH]; [reflexivity|].
  destruct l as [|b l']; [reflexivity|].
  change (rev (a :: b :: l')) with (rev (b :: l') ++ [a]).
  destruct (rev (b :: l')) as [|c m] eqn:Er.
  - exfalso. apply (f_equal (@length vec3)) in Er. rewrite length_rev in Er. discriminate.
  - rewrite <- app_comm_cons, total_dist_snoc2, IH, total_dist_cons2.
    assert (Hl : last (c :: m) v0 = b).
    { rewrite <- Er. simpl. apply last_last. }
    rewrite Hl, Hsym. ring.
Qed.

Lemma total_dist_rev_witness :
  (forall u v, norm1 (vsub u v) == norm1 (vsub v u)) /\
  total_dist norm1 (rev demo_wps) == total_dist norm1 demo_wps.
Proof.
  split; [exact norm1_sym|]. apply total_dist_rev. exact norm1_sym.
Defined.

End ToolsFacts.

(** ** [raster_line]: the shape of the traversal *)
Module RasterSteps.
Import Raster.

(** Cell [c'] is one unit step from [c]: [sx] along x or [sy] along y. *)
Definition unit_step (sx sy : Z) (c c' : Z * Z) : Prop :=
  c' = ((fst c + sx)%Z, snd c) \/ c' = (fst c, (snd c + sy)%Z).

(** Every cell of [l] but the last is followed by a unit step. *)
Definition steps_ok (sx sy : Z) (l : list (Z * Z)) : Prop :=
  forall k, (S k < length l)%nat -> unit_step sx sy (nth k l (0, 0)%Z) (nth (S k) l (0, 0)%Z).

Lemma last_nth_pred {A} (l : list A) (d : A) :
  l <> [] -> last l d = nth (pred (length l)) l d.
Proof.
  intro Hne. induction l as [|a l IH]; [contradiction|].
  destruct l as [|b l]; [reflexivity|].
  change (last (a :: b :: l) d) with (last (b :: l) d). rewrite IH by discriminate.
  reflexivity.
Qed.

Lemma steps_ok_snoc (sx sy : Z) (l : list (Z * Z)) (c : Z * Z) :
  l <> [] -> steps_ok sx sy l -> unit_step sx sy (last l (0, 0)%Z) c ->
  steps_ok sx sy (l ++ [c]).
Proof.
  intros Hne Hl Hc k Hk. rewrite length_app in Hk. simpl in Hk.
  destruct (Nat.lt_ge_cases (S k) (length l)) as [Hlt|Hge].
  - rewrite !app_nth1 by lia. apply Hl. exact Hlt.
  - assert (Hkl : k = pred (length l)) by (destruct l; [contradiction | simpl in *; lia]).
    rewrite app_nth1 by lia. rewrite app_nth2 by lia.
    replace (S k - length l)%nat with O by lia. simpl nth at 2.
    rewrite Hkl, <- last_nth_pred by exact Hne. exact Hc.
Qed.

Lemma raster_loop_steps (dx dy sx sy : Z) (fuel : nat) :
  forall x y ix iy pts out,
  raster_loop fuel dx dy sx sy x y ix iy pts = Ok out ->
  pts <> [] -> last pts (0, 0)%Z = (x, y) -> steps_ok sx sy pts ->
  (exists ext, out = pts ++ ext) /\ steps_ok sx sy out.
Proof.
  induction fuel as [|fuel IH]; intros x y ix iy pts out Hrun Hne Hlast Hok;
    cbn [raster_loop] in Hrun.
  - destruct ((ix <? dx)%Z || (iy <? dy)%Z); [discriminate|].
    injection Hrun as <-. split; [exists []; symmetry; apply app_nil_r | exact Hok].
  - destruct ((ix <? dx)%Z || (iy <? dy)%Z).
    2:{ injection Hrun as <-. split; [exists []; symmetry; apply app_nil_r | exact Hok]. }
    destruct (pydiv (inject_Z ix + (1 # 2)) (inject_Z dx)) as [fx|e]; [|discriminate].
    destruct (pydiv (inject_Z iy + (1 # 2)) (inject_Z dy)) as [fy|e]; [|discriminate].
    cbn [bind] in Hrun.
    destruct (Qltb fx fy).
    + destruct (IH _ _ _ _ _ _ Hrun) as [[ext Hext] Hout].
      * intro H. apply app_eq_nil in H as [_ H]. discriminate.
      * apply last_last.
      * apply steps_ok_snoc; [exact Hne | exact Hok|]. rewrite Hlast. left. reflexivity.
      * split; [|exact Hout]. exists (((x + sx)%Z, y) :: ext). rewrite Hext, <- app_assoc.
        reflexivity.
    + destruct (IH _ _ _ _ _ _ Hrun) as [[ext Hext] Hout].
      * intro H. apply app_eq_nil in H as [_ H]. discriminate.
      * apply last_last.
      * apply steps_ok_snoc; [exact Hne | exact Hok|]. rewrite Hlast. right. reflexivity.
      * split; [|exact Hout]. exists ((x, (y + sy)%Z) :: ext). rewrite Hext, <- app_assoc.
        reflexivity.
Qed.

(** Whenever [raster_line] returns cells, they start at the source cell and
    form a 4-connected chain: each next cell is one unit step from the
    previous one, along x in the direction [sx] of the destination or along
    y in its direction [sy]; the line never moves diagonally or away from
    the destination. *)
Theorem raster_line_steps (fuel : nat) (x0 y0 x1 y1 : Z) (cells : list (Z * Z)) :
  raster_line fuel (x0, y0) (x1, y1) = Ok cells ->
  hd_error cells = Some (x0, y0) /\
  steps_ok (if (x0 >? x1)%Z then (-1)%Z else 1%Z) (if (y0 >? y1)%Z then (-1)%Z else 1%Z) cells.
Proof.
  unfold raster_line. intro Hrun.
  destruct (raster_loop_steps _ _ _ _ fuel _ _ _ _ _ _ Hrun) as [[ext ->] Hok].
  - discriminate.
  - reflexivity.
  - intros k Hk. simpl in Hk. lia.
  - split; [reflexivity | exact Hok].
Qed.

Lemma raster_line_steps_witness :
  raster_line 8 (0, 0)%Z (1, 7)%Z =
    Ok (match raster_line 8 (0, 0)%Z (1, 7)%Z with Ok c => c | Err _ => [] end) /\
  hd_error (match raster_line 8 (0, 0)%Z (1, 7)%Z with Ok c => c | Err _ => [] end) = Some (0, 0)%Z /\
  steps_ok (if (0 >? 1)%Z then (-1)%Z else 1%Z) (if (0 >? 7)%Z then (-1)%Z else 1%Z)
    (match raster_line 8 (0, 0)%Z (1, 7)%Z with Ok c => c | Err _ => [] end).
Proof.
  split; [vm_compute; reflexivity|].
  apply (raster_line_steps 8 0 0 1 7). vm_compute. reflexivity.
Defined.

End RasterSteps.

(** ** [smooth_line]: the output stays below the highest input *)
Module SmoothCap.
Import Smooth.

(** Every value of [l] is at most [M]. *)
Definition all_le (M : Q) (l : list Q) : Prop := Forall (fun v => v <= M) l.

Lemma all_le_nth (M : Q) (l : list Q) (k : nat) :
  all_le M l -> (k < length l)%nat -> nth k l 0 <= M.
Proof.
  intros H Hk. unfold all_le in H. rewrite Forall_forall in H. apply H, nth_In, Hk.
Qed.

Lemma all_le_set_nth (M : Q) (l : list Q) (j : nat) (v : Q) :
  all_le M l -> v <= M -> all_le M (set_nth j v l).
Proof.
  unfold all_le. revert j. induction l as [|h t IH]; intros j H Hv; [destruct j; constructor|].
  inversion H as [|? ? Hh Ht]; subst.
  destruct j; simpl; constructor; auto.
Qed.

Lemma set_nth_out {A} (l : list A) (j : nat) (v : A) :
  (length l <= j)%nat -> set_nth j v l = l.
Proof.
  revert j. induction l as [|h t IH]; intros j Hj; [destruct j; reflexivity|].
  simpl in Hj. destruct j; [lia|]. simpl. rewrite IH by lia. reflexivity.
Qed.

Lemma fwd_step_cap (M mhd s : Q) (np : list Q) (j : nat) :
  0 <= mhd -> s < 0 -> all_le M np -> all_le M (fwd_step mhd s np j).
Proof.
  intros Hm Hs H. unfold fwd_step. cbv zeta.
  destruct (Nat.lt_ge_cases j (length np)) as [Hj|Hj].
  - pose proof (all_le_nth M np (j - 1) H ltac:(lia)) as Hp.
    SmoothBounds.split_ifs; try exact H; apply all_le_set_nth; try exact H; lra.
  - rewrite !set_nth_out by exact Hj. SmoothBounds.split_ifs; exact H.
Qed.

Lemma bwd_step_cap (M mhd s : Q) (np : list Q) (j : nat) :
  0 <= mhd -> 0 <= s -> (S j < length np)%nat -> all_le M np -> all_le M (bwd_step mhd s np j).
Proof.
  intros Hm Hs Hj H. unfold bwd_step. cbv zeta.
  pose proof (all_le_nth M np (j + 1) H ltac:(lia)) as Hn.
  SmoothBounds.split_ifs; try exact H; apply all_le_set_nth; try exact H; lra.
Qed.

Lemma fold_inv {B} (P : list Q -> Prop) (f : list Q -> B -> list Q) (l : list B) (x : list Q) :
  (forall y b, In b l -> P y -> P (f y b)) -> P x -> P (fold_left f l x).
Proof.
  revert x. induction l as [|b l IH]; intros x Hf Hx; [exact Hx|].
  simpl. apply IH; [intros y b' Hb'; apply Hf; right; exact Hb'|].
  apply Hf; [left; reflexivity | exact Hx].
Qed.

Lemma fwd_interval_cap (M mhd : Q) inds slopes np i :
  0 <= mhd -> all_le M np -> all_le M (fwd_interval mhd inds slopes np i).
Proof.
  intros Hm H. unfold fwd_interval. destruct (Qle_bool 0 (nth i slopes 0)) eqn:E; [exact H|].
  assert (Hs : nth i slopes 0 < 0).
  { apply Qnot_le_lt. intro Hle. apply Qle_bool_iff in Hle. congruence. }
  apply fold_inv; [|exact H]. intros y b _ Hy. apply fwd_step_cap; assumption.
Qed.

Lemma bwd_interval_cap (M mhd : Q) inds slopes np i :
  0 <= mhd -> (nth (i + 1) inds O < length np)%nat -> all_le M np ->
  all_le M (bwd_interval mhd inds slopes np i).
Proof.
  intros Hm Hb H. unfold bwd_interval. destruct (Qltb (nth i slopes 0) 0) eqn:E; [exact H|].
  apply Qltb_false in E.
  enough (all_le M (fold_left (bwd_step mhd (nth i slopes 0))
            (rev (seq (nth i inds O) (nth (i + 1) inds O - nth i inds O))) np) /\
          length (fold_left (bwd_step mhd (nth i slopes 0))
            (rev (seq (nth i inds O) (nth (i + 1) inds O - nth i inds O))) np) = length np)
    by tauto.
  apply (fold_inv (fun y => all_le M y /\ length y = length np)); [|split; [exact H | reflexivity]].
  intros y j Hj [Hy Hl]. apply in_rev, in_seq in Hj.
  split; [|rewrite SmoothBounds.bwd_step_length; exact Hl].
  apply bwd_step_cap; [exact Hm | exact E | lia | exact Hy].
Qed.

(** For a non-negative [max_height_diff], a successful [smooth_line] keeps
    the length of its input and never raises a value above the highest input
    value: every assignment copies a neighbour's value minus a non-negative
    amount. *)
Theorem smooth_line_capped (points : list Q) (mhd M : Q) (out : list Q) :
  0 <= mhd -> all_le M points -> smooth_line points mhd = Ok out ->
  length out = length points /\ all_le M out.
Proof.
  intros Hm HM H.
  destruct (calc_slopes (peaks_of points)) as [slopes|e] eqn:Hs.
  2:{ unfold smooth_line in H. destruct (py_index points 0); cbn [bind] in H;
      [rewrite Hs in H|]; discriminate. }
  destruct (SmoothBounds.smooth_line_run points mhd out slopes H Hs) as [Hlen ->].
  pose proof (SmoothBounds.calc_slopes_length _ _ Hs) as HsL.
  set (np := fold_left (fwd_interval mhd (peak_inds points) slopes) (seq 0 (length slopes)) points).
  assert (HnpL : length np = length points)
    by (apply SmoothBounds.fold_length; intros; apply SmoothBounds.fwd_interval_length).
  assert (Hnp : all_le M np).
  { apply fold_inv; [|exact HM]. intros y b _ Hy. apply fwd_interval_cap; assumption. }
  split.
  - rewrite SmoothBounds.fold_length by (intros; apply SmoothBounds.bwd_interval_length).
    exact HnpL.
  - apply (fold_inv (fun y => all_le M y /\ length y = length points)); [|split; assumption].
    intros y i Hi [Hy Hl]. apply in_rev, in_seq in Hi.
    split; [|rewrite SmoothBounds.bwd_interval_length; exact Hl].
    apply bwd_interval_cap; [exact Hm | | exact Hy].
    rewrite Hl. apply SmoothBounds.inds_lt_len; [exact Hlen | lia].
Qed.

Lemma smooth_line_capped_witness :
  0 <= 1 /\ all_le 6 [0; 5; 0; 6] /\
  smooth_line [0; 5; 0; 6] 1 =
    Ok (match smooth_line [0; 5; 0; 6] 1 with Ok o => o | Err _ => [] end) /\
  length (match smooth_line [0; 5; 0; 6] 1 with Ok o => o | Err _ => [] end) = length [0; 5; 0; 6] /\
  all_le 6 (match smooth_line [0; 5; 0; 6] 1 with Ok o => o | Err _ => [] end).
Proof.
  assert (HM : all_le 6 [0; 5; 0; 6]) by (repeat constructor; vm_compute; discriminate).
  assert (Hr : smooth_line [0; 5; 0; 6] 1 =
    Ok (match smooth_line [0; 5; 0; 6] 1 with Ok o => o | Err _ => [] end)) by (vm_compute; reflexivity).
  split; [vm_compute; discriminate|]. split; [exact HM|]. split; [exact Hr|].
  apply (smooth_line_capped [0; 5; 0; 6] 1 6); [vm_compute; discriminate | exact HM | exact Hr].
Defined.

End SmoothCap.

(** ** [gen_segment] and [gen_path] inside the raster *)
Module InRaster.
Import Path.

(** [r] has [rows] rows of [cols] cells each. *)
Definition rectangular (r : raster) (rows cols : nat) : Prop :=
  length r = rows /\ Forall (fun row => length row = cols) r.

(** [(x, y)] lies in the [cols] by [rows] area covered by the raster. *)
Definition in_box (rows cols : nat) (x y : Q) : Prop :=
  (0 <= x /\ x < inject_Z (Z.of_nat cols)) /\ (0 <= y /\ y < inject_Z (Z.of_nat rows)).

Lemma Qtrunc_bounds (q : Q) (n : Z) :
  0 <= q -> q < inject_Z n -> (0 <= Qtrunc q < n)%Z.
Proof.
  destruct q as [a d]. unfold Qtrunc, Qle, Qlt, inject_Z. cbn [Qnum Qden]. intros H0 H1.
  rewrite Z.quot_div_nonneg by lia.
  split; [apply Z.div_pos; lia | apply Z.div_lt_upper_bound; lia].
Qed.

Lemma py_index_in {A} (l : list A) (i : Z) :
  (0 <= i < Z.of_nat (length l))%Z -> exists a, py_index l i = Ok a /\ In a l.
Proof.
  intro Hi. unfold py_index.
  rewrite (proj2 (Z.leb_le 0 i)), (proj2 (Z.ltb_lt i _)) by lia. cbn [andb].
  destruct (nth_error l (Z.to_nat i)) as [a|] eqn:E.
  - exists a. split; [reflexivity|]. eapply nth_error_In. exact E.
  - apply nth_error_None in E. lia.
Qed.

Lemma raster_at_in_box (r : raster) (rows cols : nat) (x y : Q) :
  rectangular r rows cols -> in_box rows cols x y -> exists h, raster_at r x y = Ok h.
Proof.
  intros [Hrows Hcols] [[Hx0 Hx1] [Hy0 Hy1]]. unfold raster_at.
  destruct (py_index_in r (Qtrunc y)) as [row [Hrow Hin]].
  { rewrite Hrows. apply Qtrunc_bounds; assumption. }
  rewrite Hrow. cbn [bind].
  rewrite Forall_forall in Hcols.
  destruct (py_index_in row (Qtrunc x)) as [h [Hh _]].
  { rewrite (Hcols row Hin). apply Qtrunc_bounds; assumption. }
  exists h. exact Hh.
Qed.

(** A point [a + t * (b - a)] with [0 <= t < 1] between two points of
    [[0, c)] lies in [[0, c)]. *)
Lemma convex_in (a b c t : Q) :
  0 <= a -> a < c -> 0 <= b -> b < c -> 0 <= t -> t < 1 ->
  0 <= a + t * (b - a) /\ a + t * (b - a) < c.
Proof.
  intros Ha0 Ha1 Hb0 Hb1 Ht0 Ht1.
  setoid_replace (a + t * (b - a)) with ((1 - t) * a + t * b) by ring.
  split.
  - assert (H1 : 0 <= (1 - t) * a) by (apply Qmult_le_0_compat; lra).
    assert (H2 : 0 <= t * b) by (apply Qmult_le_0_compat; lra).
    lra.
  - assert (H1 : (1 - t) * a < (1 - t) * c).
    { rewrite !(Qmult_comm (1 - t)). apply Qmult_lt_r; lra. }
    assert (H2 : t * b <= t * c).
    { rewrite !(Qmult_comm t). apply Qmult_le_compat_r; lra. }
    lra.
Qed.

Section Loop.

Variables (sp : Q) (r : raster) (rows cols : nat) (sx sy ddx ddy L : Q).
Hypotheses (Hsp : 0 < sp) (Hrect : rectangular r rows cols).
(** Every point the loop can sample lies in the raster. *)
Hypothesis Hin : forall m : nat, inject_Z (Z.of_nat m) * sp < L ->
  in_box rows cols (sx + inject_Z (Z.of_nat m) * (ddx * sp / L))
                   (sy + inject_Z (Z.of_nat m) * (ddy * sp / L)).

Lemma seg_loop_ok (fuel : nat) :
  forall m curr x y acc,
  curr == inject_Z (Z.of_nat m) * sp ->
  x == sx + inject_Z (Z.of_nat m) * (ddx * sp / L) ->
  y == sy + inject_Z (Z.of_nat m) * (ddy * sp / L) ->
  (Z.to_nat (Qceiling (L / sp)) - m <= fuel)%nat ->
  exists acc', seg_loop sp fuel r ddx ddy L curr x y acc = Ok acc'.
Proof.
  induction fuel as [|fuel IH]; intros m curr x y [[xs ys] zs] Hc Hx Hy Hf;
    cbn [seg_loop].
  - destruct (Qltb curr L) eqn:Hg; [|eexists; reflexivity].
    apply Qltb_true in Hg. rewrite Hc in Hg.
    apply (PathFacts.below_iff m L sp Hsp) in Hg. lia.
  - destruct (Qltb curr L) eqn:Hg; [|eexists; reflexivity].
    apply Qltb_true in Hg. rewrite Hc in Hg.
    pose proof (Hin m Hg) as [[Hx0 Hx1] [Hy0 Hy1]].
    assert (Hm0 : 0 <= inject_Z (Z.of_nat m)).
    { change 0 with (inject_Z 0). rewrite <- Zle_Qle. lia. }
    assert (HL : 0 < L).
    { apply Qle_lt_trans with (inject_Z (Z.of_nat m) * sp); [|exact Hg].
      apply Qmult_le_0_compat; lra. }
    apply (PathFacts.below_iff m L sp Hsp) in Hg.
    destruct (raster_at_in_box r rows cols x y Hrect) as [h Hh].
    { unfold in_box. rewrite Hx, Hy. split; split; assumption. }
    rewrite Hh. cbn [bind].
    rewrite !pydiv_ok by (intro E; rewrite E in HL; discriminate). cbn [bind].
    apply (IH (S m)); [apply PathFacts.curr_succ; exact Hc | | | lia];
      rewrite Nat2Z.inj_succ, <- Z.add_1_r, inject_Z_plus; change (inject_Z 1) with 1;
      [rewrite Hx | rewrite Hy]; unfold Qdiv; ring.
Qed.

End Loop.

(** With [spacing > 0], a segment whose two waypoints both lie inside a
    rectangular raster never fails: every sample lies on the line between
    them, so no raster lookup raises [IndexError], and the loop only divides
    by [seg_dist] once [seg_dist > 0]; given fuel for its [ceil(L / spacing)]
    iterations, [gen_segment] returns its three lists.  This holds for any
    value [hypot] returns. *)
Lemma gen_segment_in_raster_ok (hypot : Q -> Q -> Q) (sp : Q) (fuel : nat) (r : raster)
    (rows cols : nat) (src_x src_y dest_x dest_y : Q) :
  0 < sp -> rectangular r rows cols ->
  in_box rows cols src_x src_y -> in_box rows cols dest_x dest_y ->
  (Z.to_nat (Qceiling (hypot (dest_x - src_x) (dest_y - src_y) / sp)%Q) <= fuel)%nat ->
  exists xs ys zs,
    gen_segment_sp hypot sp fuel r (src_x, src_y) (dest_x, dest_y) = Ok (xs, ys, zs).
Proof.
  intros Hsp Hrect Hs Hd Hf. unfold gen_segment_sp. cbv beta iota zeta.
  set (L := hypot (dest_x - src_x) (dest_y - src_y)) in *.
  destruct (seg_loop_ok sp r rows cols src_x src_y (dest_x - src_x) (dest_y - src_y) L
              Hsp Hrect) with (fuel := fuel) (m := O) (curr := 0) (x := src_x) (y := src_y)
              (acc := ([], [], []) : points3) as [[[xs ys] zs] Hl].
  - intros m Hm.
    assert (Hm0 : 0 <= inject_Z (Z.of_nat m)).
    { change 0 with (inject_Z 0). rewrite <- Zle_Qle. lia. }
    assert (HL : 0 < L).
    { apply Qle_lt_trans with (inject_Z (Z.of_nat m) * sp); [|exact Hm].
      apply Qmult_le_0_compat; lra. }
    set (t := inject_Z (Z.of_nat m) * sp / L).
    assert (Ht0 : 0 <= t).
    { unfold t. apply Qle_shift_div_l; [exact HL|]. rewrite Qmult_0_l.
      apply Qmult_le_0_compat; lra. }
    assert (Ht1 : t < 1).
    { unfold t. apply Qlt_shift_div_r; [exact HL|]. rewrite Qmult_1_l. exact Hm. }
    assert (HLn : ~ L == 0) by (intro E; rewrite E in HL; discriminate).
    destruct Hs as [[Hsx0 Hsx1] [Hsy0 Hsy1]], Hd as [[Hdx0 Hdx1] [Hdy0 Hdy1]].
    unfold in_box.
    setoid_replace (src_x + inject_Z (Z.of_nat m) * ((dest_x - src_x) * sp / L))
      with (src_x + t * (dest_x - src_x)) by (unfold t; field; exact HLn).
    setoid_replace (src_y + inject_Z (Z.of_nat m) * ((dest_y - src_y) * sp / L))
      with (src_y + t * (dest_y - src_y)) by (unfold t; field; exact HLn).
    split; apply convex_in; assumption.
  - simpl. ring.
  - simpl. ring.
  - simpl. ring.
  - lia.
  - rewrite Hl. cbn [bind].
    destruct (raster_at_in_box r rows cols dest_x dest_y Hrect Hd) as [h Hh].
    rewrite Hh. cbn [bind]. eexists _, _, _. reflexivity.
Qed.

(** With [spacing > 0], a segment whose two waypoints both lie inside a
    rectangular raster ([0 <= x < cols], [0 <= y < rows]) never raises
    [IndexError] or [ZeroDivisionError]: given fuel for its
    [ceil(L / spacing)] iterations, [gen_segment] returns its three lists,
    whatever value [hypot] returns. *)
Theorem gen_segment_in_raster (hypot : Q -> Q -> Q) (sp : Q) (fuel : nat) (r : raster)
    (rows cols : nat) (src_x src_y dest_x dest_y : Q) :
  0 < sp -> rectangular r rows cols ->
  in_box rows cols src_x src_y -> in_box rows cols dest_x dest_y ->
  (Z.to_nat (Qceiling (hypot (dest_x - src_x) (dest_y - src_y) / sp)%Q) <= fuel)%nat ->
  exists xs ys zs,
    gen_segment_sp hypot sp fuel r (src_x, src_y) (dest_x, dest_y) = Ok (xs, ys, zs).
Proof. apply gen_segment_in_raster_ok. Qed.

Lemma gen_path_in_raster_ok (hypot : Q -> Q -> Q) (sp : Q) (r : raster) (rows cols : nat)
    (wps : list (Q * Q)) :
  0 < sp -> rectangular r rows cols ->
  Forall (fun w => in_box rows cols (fst w) (snd w)) wps ->
  exists fuel0, forall fuel, (fuel0 <= fuel)%nat ->
    exists xs ys zs, gen_path_sp hypot sp fuel r wps = Ok (xs, ys, zs).
Proof.
  intros Hsp Hrect Hall. induction Hall as [|w0 wps Hw0 Hall IH].
  - exists O. intros fuel _. exists [], [], []. reflexivity.
  - destruct wps as [|w1 rest].
    + exists O. intros fuel _. exists [], [], []. destruct w0. reflexivity.
    + destruct IH as [F1 HF1]. destruct w0 as [a b], w1 as [c d].
      inversion Hall as [|? ? Hw1 _]; subst.
      exists (Nat.max (Z.to_nat (Qceiling (hypot (c - a) (d - b) / sp)%Q)) F1).
      intros fuel Hf. rewrite PathShape.gen_path_cons.
      destruct (gen_segment_in_raster_ok hypot sp fuel r rows cols a b c d Hsp Hrect Hw0 Hw1
                  ltac:(lia)) as [x [y [z Hseg]]].
      rewrite Hseg. cbn [bind].
      destruct (HF1 fuel ltac:(lia)) as [x' [y' [z' Hp]]].
      rewrite Hp. cbn [bind]. eexists _, _, _. reflexivity.
Qed.

(** With [spacing > 0] and every waypoint inside a rectangular raster,
    [gen_path] never raises [IndexError] or [ZeroDivisionError]: from some
    fuel bound on, it returns its three lists. *)
Theorem gen_path_in_raster (hypot : Q -> Q -> Q) (sp : Q) (r : raster) (rows cols : nat)
    (wps : list (Q * Q)) :
  0 < sp -> rectangular r rows cols ->
  Forall (fun w => in_box rows cols (fst w) (snd w)) wps ->
  exists fuel0, forall fuel, (fuel0 <= fuel)%nat ->
    exists xs ys zs, gen_path_sp hypot sp fuel r wps = Ok (xs, ys, zs).
Proof. apply gen_path_in_raster_ok. Qed.

Lemma rect_flat_6 : rectangular (flat_raster 6 6 0) 6 6.
Proof. split; [reflexivity | repeat constructor]. Qed.

Lemma gen_segment_in_raster_witness :
  0 < PATH_SPACING /\ rectangular (flat_raster 6 6 0) 6 6 /\
  in_box 6 6 (1 # 2) 0 /\ in_box 6 6 (7 # 2) 4 /\
  (Z.to_nat (Qceiling (hypot_q ((7 # 2) - (1 # 2)) (4 - 0) / PATH_SPACING)%Q) <= 20)%nat /\
  exists xs ys zs,
    gen_segment_sp hypot_q PATH_SPACING 20 (flat_raster 6 6 0) (1 # 2, 0) (7 # 2, 4) =
      Ok (xs, ys, zs).
Proof.
  assert (B1 : in_box 6 6 (1 # 2) 0)
    by (split; split; vm_compute; first [reflexivity | discriminate]).
  assert (B2 : in_box 6 6 (7 # 2) 4)
    by (split; split; vm_compute; first [reflexivity | discriminate]).
  split; [reflexivity|]. split; [exact rect_flat_6|]. split; [exact B1|].
  split; [exact B2|]. split; [vm_compute; lia|].
  apply (gen_segment_in_raster hypot_q PATH_SPACING 20 (flat_raster 6 6 0) 6 6);
    [reflexivity | exact rect_flat_6 | exact B1 | exact B2 | vm_compute; lia].
Defined.

Lemma gen_path_in_raster_witness :
  0 < PATH_SPACING /\ rectangular (flat_raster 6 6 0) 6 6 /\
  Forall (fun w => in_box 6 6 (fst w) (snd w)) [(0, 0); (3, 4); (5, 1 # 2)] /\
  exists fuel0, forall fuel, (fuel0 <= fuel)%nat ->
    exists xs ys zs,
      gen_path_sp hypot_q PATH_SPACING fuel (flat_raster 6 6 0) [(0, 0); (3, 4); (5, 1 # 2)] =
        Ok (xs, ys, zs).
Proof.
  assert (B : Forall (fun w => in_box 6 6 (fst w) (snd w)) [(0, 0); (3, 4); (5, 1 # 2)])
    by (repeat constructor; vm_compute; first [reflexivity | discriminate]).
  split; [reflexivity|]. split; [exact rect_flat_6|]. split; [exact B|].
  apply (gen_path_in_raster hypot_q PATH_SPACING (flat_raster 6 6 0) 6 6);
    [reflexivity | exact rect_flat_6 | exact B].
Defined.

End InRaster.
